(** * TXSonicLabPro: the batch job runner of the audio emotion lab

    A shallow embedding of the [App] component (queue of [AudioFile] jobs,
    [processBatch], [handleFileChange], [removeFile], [clearAll],
    [exportResults]) and of the types of [types.ts].

    Strings are byte strings (the UTF-8 encoding of the JavaScript strings);
    an ASCII pattern occurs in a JavaScript string exactly when its bytes
    occur in the encoding, so [includes] and the quote handling of the export
    are unaffected by the encoding. *)

From Stdlib Require Import String Ascii List ZArith Lia Bool Arith DecimalString.
Import ListNotations.
Local Open Scope string_scope.
Local Open Scope list_scope.

(** ** types.ts *)

Inductive EmotionStatus : Type := IDLE | PROCESSING | COMPLETED | FAILED.

Definition status_eqb (a b : EmotionStatus) : bool :=
  match a, b with
  | IDLE, IDLE | PROCESSING, PROCESSING | COMPLETED, COMPLETED | FAILED, FAILED => true
  | _, _ => false
  end.

(** The browser's [File]: only its name, size and media type are read. *)
Record File : Type := mkFile {
  fileName : string;
  fileSize : Z;
  fileType : string
}.

(** What [analyzeAudioEmotion] resolves with: the value that [JSON.parse]
    makes of the response text, cast to [interface AnalysisResult] without a
    check.  Nothing in the code looks at the value before its four fields
    are read, so a field that the response lacks (or gives as null) reads as
    undefined, here [None]; a field that is there has the declared type, the
    numbers being integers. *)
Module AnalysisResult.
Record t : Type := mk {
  emotionType : option string;
  emotionLevel : option Z;
  voiceIdentity : option string;
  reasoning : option string
}.
End AnalysisResult.

(** [interface AudioFile]: a field marked [?] in the source is an [option]. *)
Record AudioFile : Type := mkAudioFile {
  id : string;
  file : File;
  name : string;
  size : string;
  status : EmotionStatus;
  emotionType : option string;
  emotionLevel : option Z;
  voiceIdentity : option string;
  reasoning : option string;
  error : option string
}.

(** ** Strings *)

(** [s.includes(sub)]. *)
Fixpoint includes (s sub : string) : bool :=
  if String.prefix sub s then true
  else match s with
       | EmptyString => false
       | String _ s' => includes s' sub
       end.

(** The double-quote character, as a character and as a one-character string. *)
Definition dquote : ascii := "034"%char.
Definition dq : string := String dquote EmptyString.

(** [s.replace] with the global pattern of one double quote and the
    replacement of two: every double quote of [s] is doubled. *)
Fixpoint doubleQuotes (s : string) : string :=
  match s with
  | EmptyString => EmptyString
  | String c s' =>
      if Ascii.eqb c dquote then String dquote (String dquote (doubleQuotes s'))
      else String c (doubleQuotes s')
  end.

(** ** Values thrown and promises settled *)

(** A value caught by [catch (error: any)].  What the two collaborators
    throw is an object (an [Error], or the event of a failed read); the code
    reads only its [message], which may be undefined. *)
Record JsError : Type := mkError { message : option string }.

(** [error.message?.includes(pat)]: undefined (falsy) without a message. *)
Definition messageIncludes (e : JsError) (pat : string) : bool :=
  match message e with
  | Some m => includes m pat
  | None => false
  end.

Inductive settled (A : Type) : Type :=
| Fulfilled (a : A)
| Rejected (e : JsError).
Arguments Fulfilled {A} a.
Arguments Rejected {A} e.

(** The three things [processBatch] awaits, indexed by what the await yields.
    [analyzeAudioEmotion] resolves with what [JSON.parse] makes of the
    response text, cast to [AnalysisResult] without a check, and rejects
    with whatever the client or the parser throws; [sleep] wraps
    [setTimeout] in a promise that only ever resolves. *)
Inductive call : Type -> Type :=
| fileToBase64 (f : File) : call (settled string)
| analyzeAudioEmotion (base64Data mimeType : string) : call (settled AnalysisResult.t)
| sleep (ms : Z) : call unit.

(** ** Asynchronous handlers

    An [async] function over the component state ([files], [isProcessing]) is
    a tree of state accesses and awaits.  Between two awaits the code runs
    without interruption; at an await the handler is suspended and other
    handlers may run. *)

Inductive proc (A : Type) : Type :=
| Ret (a : A)
| GetIsProcessing (k : bool -> proc A)
| SetIsProcessing (b : bool) (k : proc A)
| GetFiles (k : list AudioFile -> proc A)
| SetFiles (upd : list AudioFile -> list AudioFile) (k : proc A)
| Await {X : Type} (c : call X) (k : X -> proc A).
Arguments Ret {A} a.
Arguments GetIsProcessing {A} k.
Arguments SetIsProcessing {A} b k.
Arguments GetFiles {A} k.
Arguments SetFiles {A} upd k.
Arguments Await {A X} c k.

Fixpoint bind {A B : Type} (m : proc A) (f : A -> proc B) : proc B :=
  match m with
  | Ret a => f a
  | GetIsProcessing k => GetIsProcessing (fun b => bind (k b) f)
  | SetIsProcessing b k => SetIsProcessing b (bind k f)
  | GetFiles k => GetFiles (fun fs => bind (k fs) f)
  | SetFiles upd k => SetFiles upd (bind k f)
  | Await c k => Await c (fun x => bind (k x) f)
  end.

Definition getIsProcessing : proc bool := GetIsProcessing Ret.
Definition setIsProcessing (b : bool) : proc unit := SetIsProcessing b (Ret tt).
Definition getFiles : proc (list AudioFile) := GetFiles Ret.
Definition setFiles (upd : list AudioFile -> list AudioFile) : proc unit :=
  SetFiles upd (Ret tt).
Definition await {X : Type} (c : call X) : proc X := Await c Ret.

Declare Scope proc_scope.
Delimit Scope proc_scope with proc.
Notation "x <- m ;; k" := (bind m (fun x => k))
  (at level 61, m at next level, right associativity) : proc_scope.
Notation "m ;; k" := (bind m (fun _ => k))
  (at level 61, right associativity) : proc_scope.
Local Open Scope proc_scope.

(** ** processBatch *)

Definition maxRetries : nat := 2.

(** [prev.map(f => f.id === target ? patch(f) : f)]. *)
Definition mapJob (target : string) (patch : AudioFile -> AudioFile)
  (prev : list AudioFile) : list AudioFile :=
  map (fun f => if String.eqb (id f) target then patch f else f) prev.

(** [{ ...f, status: PROCESSING, error: undefined }] *)
Definition toProcessing (f : AudioFile) : AudioFile :=
  {| id := id f; file := file f; name := name f; size := size f;
     status := PROCESSING;
     emotionType := emotionType f; emotionLevel := emotionLevel f;
     voiceIdentity := voiceIdentity f; reasoning := reasoning f;
     error := None |}.

(** [{ ...f, status: COMPLETED, emotionType: result.emotionType, ... }] *)
Definition toCompleted (result : AnalysisResult.t) (f : AudioFile) : AudioFile :=
  {| id := id f; file := file f; name := name f; size := size f;
     status := COMPLETED;
     emotionType := AnalysisResult.emotionType result;
     emotionLevel := AnalysisResult.emotionLevel result;
     voiceIdentity := AnalysisResult.voiceIdentity result;
     reasoning := AnalysisResult.reasoning result;
     error := error f |}.

(** [{ ...f, status: FAILED, error: label }] *)
Definition toFailed (label : string) (f : AudioFile) : AudioFile :=
  {| id := id f; file := file f; name := name f; size := size f;
     status := FAILED;
     emotionType := emotionType f; emotionLevel := emotionLevel f;
     voiceIdentity := voiceIdentity f; reasoning := reasoning f;
     error := Some label |}.

Definition rateLimitLabel : string := "频率超限".
Definition genericLabel : string := "分析失败".

(** The condition of the [if] that opens the [catch] block. *)
Definition isRateLimit (e : JsError) : bool :=
  messageIncludes e "429" || messageIncludes e "RESOURCE_EXHAUSTED".

(** [error.message?.includes("429") ? "频率超限" : "分析失败"] *)
Definition errorLabel (e : JsError) : string :=
  if messageIncludes e "429" then rateLimitLabel else genericLabel.

(** The [try] block: the first rejected await transfers control to [catch]. *)
Definition tryBlock (audioFile : AudioFile) : proc (settled unit) :=
  b <- await (fileToBase64 (file audioFile)) ;;
  match b with
  | Rejected e => Ret (Rejected e)
  | Fulfilled base64 =>
      r <- await (analyzeAudioEmotion base64 (fileType (file audioFile))) ;;
      match r with
      | Rejected e => Ret (Rejected e)
      | Fulfilled result =>
          setFiles (mapJob (id audioFile) (toCompleted result)) ;;
          Ret (Fulfilled tt)
      end
  end.

(** The tail of the [catch] block: mark the job failed, then [break]. *)
Definition markFailed (audioFile : AudioFile) (e : JsError) : proc unit :=
  setFiles (mapJob (id audioFile) (toFailed (errorLabel e))).

(** [while (retryCount <= maxRetries && !success)].  [success] is false at
    every entry of the loop and true only after a [try] block that ran to its
    end, which leaves the loop.  [fuel] bounds the number of iterations;
    [whileLoop_fuel] shows that [S maxRetries] is never used up.  The two
    console lines of the [catch] block change no state and are left out. *)
Fixpoint whileLoop (fuel : nat) (audioFile : AudioFile) (retryCount : nat) : proc unit :=
  match fuel with
  | O => Ret tt
  | S fuel' =>
      if (retryCount <=? maxRetries)%nat then
        r <- tryBlock audioFile ;;
        match r with
        | Fulfilled _ => Ret tt
        | Rejected e =>
            if isRateLimit e then
              let retryCount := S retryCount in
              if (retryCount <=? maxRetries)%nat then
                let waitTime := (Z.of_nat retryCount * 5000)%Z in
                await (sleep waitTime) ;;
                whileLoop fuel' audioFile retryCount
              else markFailed audioFile e
            else markFailed audioFile e
        end
      else Ret tt
  end.

(** [for (let i = 0; i < pendingFiles.length; i++)], with [rest] the part of
    [pendingFiles] from index [i] on and [len] its full length. *)
Fixpoint forLoop (rest : list AudioFile) (i len : Z) : proc unit :=
  match rest with
  | [] => Ret tt
  | audioFile :: rest' =>
      setFiles (mapJob (id audioFile) toProcessing) ;;
      whileLoop (S maxRetries) audioFile 0 ;;
      (if (i <? len - 1)%Z then await (sleep 1500) else Ret tt) ;;
      forLoop rest' (i + 1)%Z len
  end.

Definition isPending (f : AudioFile) : bool :=
  status_eqb (status f) IDLE || status_eqb (status f) FAILED.

(** [isProcessing] and [files] are the values of the render whose handler
    runs; React renders again after every handler and every resumed await, so
    they are the current state when the handler starts. *)
Definition processBatch : proc unit :=
  isProcessing <- getIsProcessing ;;
  if isProcessing then Ret tt
  else
    setIsProcessing true ;;
    files <- getFiles ;;
    let pendingFiles := filter isPending files in
    forLoop pendingFiles 0 (Z.of_nat (length pendingFiles)) ;;
    setIsProcessing false.

(** ** exportResults *)

(** [x || ''] on an optional string: undefined and the empty string both
    give the empty string. *)
Definition orEmpty (x : option string) : string :=
  match x with
  | Some s => s
  | None => EmptyString
  end.

(** The template's rendering of [f.emotionLevel || '']: undefined and 0 are
    falsy; any other integer prints in decimal, as JavaScript prints the
    integers below 10^21 in absolute value (beyond, it prints a mantissa and
    an exponent, a text that is not empty and holds no double quote
    either). *)
Definition levelText (x : option Z) : string :=
  match x with
  | Some n => if (n =? 0)%Z then EmptyString else NilZero.string_of_int (Z.to_int n)
  | None => EmptyString
  end.

(** [f.reasoning?.replace(...) || '']. *)
Definition reasoningText (x : option string) : string :=
  match x with
  | Some s => doubleQuotes s
  | None => EmptyString
  end.

(** One template literal of [exportResults]: five fields, each between
    double quotes, separated by commas.  Only [reasoning] goes through
    [replace]. *)
Definition exportRow (f : AudioFile) : string :=
  (dq ++ name f ++ dq ++ "," ++
   dq ++ orEmpty (emotionType f) ++ dq ++ "," ++
   dq ++ levelText (emotionLevel f) ++ dq ++ "," ++
   dq ++ orEmpty (voiceIdentity f) ++ dq ++ "," ++
   dq ++ reasoningText (reasoning f) ++ dq)%string.

Definition newline : string := String "010"%char EmptyString.

(** [files.map(...)]: the rows before [join]. *)
Definition exportRows (files : list AudioFile) : list string :=
  map exportRow files.

(** [rows.join(sep)]. *)
Fixpoint join (sep : string) (rows : list string) : string :=
  match rows with
  | [] => EmptyString
  | [r] => r
  | r :: rest => (r ++ sep ++ join sep rest)%string
  end.

Definition header : string :=
  ("文件名,情绪,强度(1-10),角色标签,AI洞察" ++ newline)%string.

(** The byte order mark, as its three UTF-8 bytes. *)
Definition bom : string :=
  String "239"%char (String "187"%char (String "191"%char EmptyString)).

(** The text of the blob that [exportResults] offers for download. *)
Definition exportResults (files : list AudioFile) : string :=
  (bom ++ header ++ join newline (exportRows files))%string.

(** The row that the specification describes: every one of the five
    fields between double quotes, with its own double quotes doubled. *)
Definition quoteField (s : string) : string := (dq ++ doubleQuotes s ++ dq)%string.

Definition specifiedRow (f : AudioFile) : string :=
  (quoteField (name f) ++ "," ++
   quoteField (orEmpty (emotionType f)) ++ "," ++
   quoteField (levelText (emotionLevel f)) ++ "," ++
   quoteField (orEmpty (voiceIdentity f)) ++ "," ++
   quoteField (orEmpty (reasoning f)))%string.

(** No double quote occurs in [s]. *)
Fixpoint quoteFree (s : string) : bool :=
  match s with
  | EmptyString => true
  | String c s' => negb (Ascii.eqb c dquote) && quoteFree s'
  end.

(** An Idle job whose file name contains a double quote. *)
Definition quotedName : string := ("a" ++ dq ++ "b.wav")%string.
Definition quotedJob : AudioFile :=
  {| id := "q"; file := {| fileName := quotedName; fileSize := 1024; fileType := "audio/wav" |};
     name := quotedName; size := "1 KB";
     status := IDLE;
     emotionType := None; emotionLevel := None;
     voiceIdentity := None; reasoning := None; error := None |}.

(** ** Rendering *)

(** The palette of [getLevelColor]. *)
Definition colors : list string :=
  ["bg-emerald-400"; "bg-emerald-500"; "bg-green-500"; "bg-lime-500"; "bg-yellow-400";
   "bg-amber-500"; "bg-orange-500"; "bg-orange-600"; "bg-red-500"; "bg-rose-600"].

(** [colors[Math.max(0, Math.min(level - 1, 9))]] for an integer [level];
    [None] stands for undefined. *)
Definition getLevelColor (level : Z) : option string :=
  nth_error colors (Z.to_nat (Z.max 0 (Z.min (level - 1) 9))).

(** The text that [StatusChip] shows; for a Failed job, [error || ...]. *)
Definition statusChipText (st : EmotionStatus) (err : option string) : string :=
  match st with
  | IDLE => "等待中"
  | PROCESSING => "解析中"
  | COMPLETED => "已完成"
  | FAILED =>
      match err with
      | Some s => if String.eqb s EmptyString then "失败" else s
      | None => "失败"
      end
  end.

(** The counter of analysed jobs:
    [files.filter(f => f.status === EmotionStatus.COMPLETED).length]. *)
Definition completedCount (files : list AudioFile) : nat :=
  length (filter (fun f => status_eqb (status f) COMPLETED) files).

(** What no write of a run changes in a job. *)
Definition jobKey (f : AudioFile) : string * File * string * string :=
  (id f, file f, name f, size f).

(** The number of double quotes in [s]. *)
Fixpoint quoteCount (s : string) : nat :=
  match s with
  | EmptyString => 0
  | String c s' => (if Ascii.eqb c dquote then 1 else 0) + quoteCount s'
  end.

(** ** The synchronous handlers and the component state *)

Section App.

(** [formatFileSize] of [utils/audioUtils]: the text shown for a byte count. *)
Variable formatFileSize : Z -> string.

(** One element of [newFiles] in [handleFileChange], for the file [snd rf];
    [fst rf] is the value of [Math.random().toString(36).substring(7)] drawn
    for it. *)
Definition newFile (rf : string * File) : AudioFile :=
  {| id := fst rf; file := snd rf; name := fileName (snd rf);
     size := formatFileSize (fileSize (snd rf));
     status := IDLE;
     emotionType := None; emotionLevel := None;
     voiceIdentity := None; reasoning := None; error := None |}.

(** [setFiles(prev => [...prev, ...newFiles])]; with no file list the
    handler does nothing, as with an empty one. *)
Definition handleFileChange (picked : list (string * File))
  (prev : list AudioFile) : list AudioFile :=
  prev ++ map newFile picked.

(** [setFiles(prev => prev.filter(f => f.id !== id))] *)
Definition removeFile (target : string) (prev : list AudioFile) : list AudioFile :=
  filter (fun f => negb (String.eqb (id f) target)) prev.

(** [clearAll], given the answer to [window.confirm]. *)
Definition clearAll (confirmed : bool) (prev : list AudioFile) : list AudioFile :=
  if confirmed then [] else prev.

(** What has been awaited, with what it yielded. *)
Inductive event : Type :=
| Encoded (f : File) (r : settled string)
| Inferred (base64Data mimeType : string) (r : settled AnalysisResult.t)
| Slept (ms : Z).

Definition eventOf {X : Type} (c : call X) : X -> event :=
  match c in call T return T -> event with
  | fileToBase64 f => fun r => Encoded f r
  | analyzeAudioEmotion b m => fun r => Inferred b m r
  | sleep ms => fun _ => Slept ms
  end.

(** The two [useState] cells that the handlers touch, and the awaits
    completed so far. *)
Record World : Type := mkWorld {
  files : list AudioFile;
  isProcessing : bool;
  log : list event
}.

Definition withFiles (fs : list AudioFile) (w : World) : World :=
  {| files := fs; isProcessing := isProcessing w; log := log w |}.
Definition withIsProcessing (b : bool) (w : World) : World :=
  {| files := files w; isProcessing := b; log := log w |}.
Definition record (e : event) (w : World) : World :=
  {| files := files w; isProcessing := isProcessing w; log := log w ++ [e] |}.

(** What the user can do to the queue while a run is suspended: choose
    files, or remove one row.  (The clear-all button is disabled then.) *)
Inductive action : Type :=
| PickFiles (picked : list (string * File))
| RemoveRow (target : string).

Definition act (w : World) (a : action) : World :=
  match a with
  | PickFiles picked => withFiles (handleFileChange picked (files w)) w
  | RemoveRow target => withFiles (removeFile target (files w)) w
  end.

Definition acts (w : World) (l : list action) : World := fold_left act l w.

(** *** One run, from the click to its return

    The environment decides, for the [n]-th await of the run, what the user
    does while the run is suspended and what the await yields. *)
Record Env : Type := mkEnv {
  meanwhile : nat -> list action;
  answer : nat -> forall X : Type, call X -> X
}.

Fixpoint run {A : Type} (p : proc A) (env : Env) (n : nat) (w : World)
  : A * World * nat :=
  match p with
  | Ret a => (a, w, n)
  | GetIsProcessing k => run (k (isProcessing w)) env n w
  | SetIsProcessing b k => run k env n (withIsProcessing b w)
  | GetFiles k => run (k (files w)) env n w
  | SetFiles upd k => run k env n (withFiles (upd (files w)) w)
  | Await c k =>
      let r := answer env n _ c in
      run (k r) env (S n) (record (eventOf c r) (acts w (meanwhile env n)))
  end.

(** The world when [p], started in [w] with [n] awaits already made, has
    returned; [finalWorld] for a handler started by the user. *)
Definition worldAfter {A : Type} (p : proc A) (env : Env) (n : nat) (w : World) : World :=
  snd (fst (run p env n w)).
Definition finalWorld {A : Type} (p : proc A) (env : Env) (w : World) : World :=
  worldAfter p env 0 w.

(** *** The event loop

    A handler runs until its next await and is then parked; a parked handler
    resumes when its await settles. *)
Inductive parked : Type :=
| Parked {X : Type} (c : call X) (k : X -> proc unit).

Fixpoint advance (p : proc unit) (w : World) : World * option parked :=
  match p with
  | Ret _ => (w, None)
  | GetIsProcessing k => advance (k (isProcessing w)) w
  | SetIsProcessing b k => advance k (withIsProcessing b w)
  | GetFiles k => advance (k (files w)) w
  | SetFiles upd k => advance k (withFiles (upd (files w)) w)
  | Await c k => (w, Some (Parked c k))
  end.

Record Sys : Type := mkSys {
  world : World;
  inflight : list parked
}.

Inductive label : Type :=
| Click                                          (* processBatch is invoked *)
| User (a : action)                              (* files chosen, a row removed *)
| ClearAll (confirmed : bool)                    (* the clear-all button *)
| Settle (i : nat) (ans : forall X : Type, call X -> X).  (* an await settles *)

Definition park (r : option parked) (l : list parked) : list parked :=
  match r with
  | Some p => l ++ [p]
  | None => l
  end.

Fixpoint dropNth {T : Type} (i : nat) (l : list T) : list T :=
  match l, i with
  | [], _ => []
  | _ :: l', O => l'
  | x :: l', S i' => x :: dropNth i' l'
  end.

Definition step (s : Sys) (l : label) : Sys :=
  match l with
  | Click =>
      let '(w, r) := advance processBatch (world s) in
      {| world := w; inflight := park r (inflight s) |}
  | User a => {| world := act (world s) a; inflight := inflight s |}
  | ClearAll confirmed =>
      if isProcessing (world s) then s
      else {| world := withFiles (clearAll confirmed (files (world s))) (world s);
              inflight := inflight s |}
  | Settle i ans =>
      match nth_error (inflight s) i with
      | None => s
      | Some (Parked c k) =>
          let r := ans _ c in
          let '(w, p) := advance (k r) (record (eventOf c r) (world s)) in
          {| world := w; inflight := park p (dropNth i (inflight s)) |}
      end
  end.

Definition steps (s : Sys) (ls : list label) : Sys := fold_left step ls s.

(** The component as mounted: [useState([])], [useState(false)]. *)
Definition mounted : Sys :=
  {| world := {| files := []; isProcessing := false; log := [] |}; inflight := [] |}.

(** *** A logic of handlers

    [wp allowed Inv p Q w]: started in [w], the handler [p] finds [Inv] at
    each of its awaits and, if it returns, returns in a world satisfying
    [Q], whatever its awaits yield and whatever [allowed] actions the user
    takes while it is suspended. *)

Fixpoint okActs (allowed : World -> action -> Prop) (w : World) (l : list action) : Prop :=
  match l with
  | [] => True
  | a :: l' => allowed w a /\ okActs allowed (act w a) l'
  end.

Fixpoint wp (allowed : World -> action -> Prop) (Inv : World -> Prop)
  {A : Type} (p : proc A) (Q : A -> World -> Prop) (w : World) : Prop :=
  match p with
  | Ret a => Q a w
  | GetIsProcessing k => wp allowed Inv (k (isProcessing w)) Q w
  | SetIsProcessing b k => wp allowed Inv k Q (withIsProcessing b w)
  | GetFiles k => wp allowed Inv (k (files w)) Q w
  | SetFiles upd k => wp allowed Inv k Q (withFiles (upd (files w)) w)
  | Await c k =>
      Inv w /\
      forall l r, okActs allowed w l ->
        wp allowed Inv (k r) Q (record (eventOf c r) (acts w l))
  end.

(** The environment of a run keeps to [allowed]. *)
Definition envKeeps (allowed : World -> action -> Prop) (env : Env) : Prop :=
  forall n w, okActs allowed w (meanwhile env n).

(** *** The shape of a run's log *)

(** How one pass through the [try] block ended. *)
Inductive attempt : Type :=
| EncodeFailed (e : JsError)
| InferFailed (base64Data : string) (e : JsError)
| Succeeded (base64Data : string) (result : AnalysisResult.t).

(** The awaits of one pass through the [try] block for [audioFile]. *)
Definition attemptLog (audioFile : AudioFile) (a : attempt) : list event :=
  match a with
  | EncodeFailed e => [Encoded (file audioFile) (Rejected e)]
  | InferFailed b e =>
      [Encoded (file audioFile) (Fulfilled b);
       Inferred b (fileType (file audioFile)) (Rejected e)]
  | Succeeded b result =>
      [Encoded (file audioFile) (Fulfilled b);
       Inferred b (fileType (file audioFile)) (Fulfilled result)]
  end.

(** The value that reached [catch], if any. *)
Definition caught (a : attempt) : option JsError :=
  match a with
  | EncodeFailed e | InferFailed _ e => Some e
  | Succeeded _ _ => None
  end.

(** [pat] occurs in [s]. *)
Definition Contains (s pat : string) : Prop :=
  exists pre post : string, s = (pre ++ pat ++ post)%string.

(** The caught value has a message, and the message contains one of the
    two rate-limit marks. *)
Definition rateLimitMarked (e : JsError) : Prop :=
  exists m, message e = Some m /\
            (Contains m "429" \/ Contains m "RESOURCE_EXHAUSTED").

(** The attempt failed, with a rate-limit mark. *)
Definition rateLimited (a : attempt) : Prop :=
  exists e, caught a = Some e /\ rateLimitMarked e.

(** The attempts that were retried, the [k]-th of them followed by a wait
    of [k * 5000] ms, for [k] counted from [first]. *)
Fixpoint retryRounds (audioFile : AudioFile) (first : nat) (retried : list attempt)
  : list event :=
  match retried with
  | [] => []
  | a :: rest =>
      attemptLog audioFile a ++
      Slept (Z.of_nat first * 5000) :: retryRounds audioFile (S first) rest
  end.

(** The awaits of one job: at most two retried attempts, each rate-limited,
    then a last attempt that succeeded, or failed without a rate-limit mark,
    or was the third. *)
Definition jobSegment (audioFile : AudioFile) (seg : list event) : Prop :=
  exists retried last,
    seg = retryRounds audioFile 1 retried ++ attemptLog audioFile last /\
    length retried <= maxRetries /\
    Forall rateLimited retried /\
    (forall e, caught last = Some e ->
       isRateLimit e = false \/ length retried = maxRetries).

(** The segments of the jobs of a run, with the pause of 1500 ms between
    two consecutive ones. *)
Fixpoint paced (segs : list (list event)) : list event :=
  match segs with
  | [] => []
  | [seg] => seg
  | seg :: rest => seg ++ Slept 1500 :: paced rest
  end.

(** No assumption on the user, nothing required at the awaits. *)
Definition anyAction : World -> action -> Prop := fun _ _ => True.
Definition noInv : World -> Prop := fun _ => True.

(** What [whileLoop], entered with [retryCount] in world [w], has done when
    it leaves in world [w']. *)
Definition loopPost (audioFile : AudioFile) (retryCount : nat) (w w' : World) : Prop :=
  exists retried last,
    log w' = log w ++ retryRounds audioFile (S retryCount) retried
                   ++ attemptLog audioFile last /\
    retryCount + length retried <= maxRetries /\
    Forall rateLimited retried /\
    match caught last with
    | None =>
        forall f, In f (files w') -> id f = id audioFile -> status f = COMPLETED
    | Some e =>
        (isRateLimit e = false \/ retryCount + length retried = maxRetries) /\
        forall f, In f (files w') -> id f = id audioFile ->
          status f = FAILED /\ error f = Some (errorLabel e)
    end.

(** *** Schedules of the event loop *)

(** A label is valid when what the user does is [allowed]. *)
Definition validLabel (allowed : World -> action -> Prop) (s : Sys) (l : label) : Prop :=
  match l with
  | User a => allowed (world s) a
  | _ => True
  end.

Fixpoint validFrom (allowed : World -> action -> Prop) (s : Sys) (ls : list label) : Prop :=
  match ls with
  | [] => True
  | l :: ls' => validLabel allowed s l /\ validFrom allowed (step s l) ls'
  end.

(** The invariant of the event loop: either no run is in flight and [Idle]
    holds, or exactly one is, parked at an await since a world [w0] with
    [Inv], the user having acted since, and its continuation is proved to
    lead back to [Idle]. *)
Definition LoopInv (allowed : World -> action -> Prop) (Inv Idle : World -> Prop)
  (s : Sys) : Prop :=
  (inflight s = [] /\ Idle (world s)) \/
  (exists (X : Type) (c : call X) (k : X -> proc unit) (w0 : World) (l : list action),
      inflight s = [Parked c k] /\
      Inv w0 /\ okActs allowed w0 l /\ world s = acts w0 l /\
      forall l' r, okActs allowed w0 l' ->
        wp allowed Inv (k r) (fun _ w' => Idle w') (record (eventOf c r) (acts w0 l'))).

(** *** The run-active flag *)

Definition running (w : World) : Prop := isProcessing w = true.
Definition notRunning (w : World) : Prop := isProcessing w = false.

(** *** The invariant of a job *)

(** The invariant as the specification states it: each of the four result
    fields is present exactly when the job is Completed, and the error
    field exactly when it is Failed. *)
Definition jobInvariant (f : AudioFile) : Prop :=
  (emotionType f <> None <-> status f = COMPLETED) /\
  (emotionLevel f <> None <-> status f = COMPLETED) /\
  (voiceIdentity f <> None <-> status f = COMPLETED) /\
  (reasoning f <> None <-> status f = COMPLETED) /\
  (error f <> None <-> status f = FAILED).

(** What the code keeps of it: a job that is not Completed has none of the
    four result fields, and the error field is present exactly when the job
    is Failed. *)
Definition noResult (f : AudioFile) : Prop :=
  emotionType f = None /\ emotionLevel f = None /\
  voiceIdentity f = None /\ reasoning f = None.

Definition jobFields (f : AudioFile) : Prop :=
  (status f <> COMPLETED -> noResult f) /\
  (error f <> None <-> status f = FAILED).

(** The result fields of [f] are those of [result], each present exactly
    when [result] has it. *)
Definition resultOf (f : AudioFile) (result : AnalysisResult.t) : Prop :=
  emotionType f = AnalysisResult.emotionType result /\
  emotionLevel f = AnalysisResult.emotionLevel result /\
  voiceIdentity f = AnalysisResult.voiceIdentity result /\
  reasoning f = AnalysisResult.reasoning result.

(** The result has the four fields that the interface declares. *)
Definition hasAllFields (result : AnalysisResult.t) : Prop :=
  AnalysisResult.emotionType result <> None /\
  AnalysisResult.emotionLevel result <> None /\
  AnalysisResult.voiceIdentity result <> None /\
  AnalysisResult.reasoning result <> None.

(** The result has an intensity, between 1 and 10 as the prompt asks. *)
Definition levelInRange (result : AnalysisResult.t) : Prop :=
  exists level, AnalysisResult.emotionLevel result = Some level /\ (1 <= level <= 10)%Z.

(** A Completed job carries a result that some inference of [lg] yielded. *)
Definition fromInference (lg : list event) (f : AudioFile) : Prop :=
  status f = COMPLETED ->
  exists b m result, In (Inferred b m (Fulfilled result)) lg /\ resultOf f result.

(** The identifiers drawn for newly chosen files are distinct and not in
    the queue. *)
Definition freshPick (w : World) (a : action) : Prop :=
  match a with
  | PickFiles picked =>
      NoDup (map fst picked) /\
      forall rf, In rf picked -> ~ In (fst rf) (map id (files w))
  | RemoveRow _ => True
  end.

Definition wellFormed (w : World) : Prop :=
  NoDup (map id (files w)) /\
  Forall jobFields (files w) /\
  Forall (fromInference (log w)) (files w).

Definition wellFormedRunning (w : World) : Prop := running w /\ wellFormed w.
Definition wellFormedIdle (w : World) : Prop := notRunning w /\ wellFormed w.

(** Between jobs, with [rest] still to do: the jobs of the queue that bear
    an identifier of [rest] are pending. *)
Definition wfTop (rest : list AudioFile) (w : World) : Prop :=
  wellFormedRunning w /\
  NoDup (map id rest) /\
  forall f, In f (files w) -> In (id f) (map id rest) -> isPending f = true.

(** While [x] is processed: a job of the queue that bears its identifier is
    Processing (or was just added). *)
Definition wfMid (x : AudioFile) (rest : list AudioFile) (w : World) : Prop :=
  wellFormedRunning w /\
  NoDup (map id (x :: rest)) /\
  (forall f, In f (files w) -> id f = id x ->
     status f = PROCESSING \/ status f = IDLE) /\
  forall f, In f (files w) -> In (id f) (map id rest) -> isPending f = true.

(** *** What a run leaves alone *)

Definition terminal (f : AudioFile) : Prop :=
  status f = COMPLETED \/ status f = FAILED.

(** While the run is suspended the user adds no file under an identifier of
    [avoid] and removes no row whose identifier is in [keep]. *)
Definition keeps (avoid keep : list string) (a : action) : Prop :=
  match a with
  | PickFiles picked => forall rf, In rf picked -> ~ In (fst rf) avoid
  | RemoveRow target => ~ In target keep
  end.

Definition picksAvoid (avoid : list string) (env : Env) : Prop :=
  forall n picked rf,
    In (PickFiles picked) (meanwhile env n) -> In rf picked -> ~ In (fst rf) avoid.

Definition neverRemoves (keep : list string) (env : Env) : Prop :=
  forall n target, In (RemoveRow target) (meanwhile env n) -> ~ In target keep.

(** A job that no run has written to: one of [origin], or one as
    [handleFileChange] creates it. *)
Definition untouched (origin : list AudioFile) (f : AudioFile) : Prop :=
  In f origin \/ exists rf, f = newFile rf.

(** Between jobs, with [rest] still to do, for a run that selected the
    identifiers [selected] in the queue [origin]. *)
Definition frameTop (selected avoid keep : list string) (origin : list AudioFile)
  (rest : list AudioFile) (w : World) : Prop :=
  incl (map id rest) selected /\
  (forall f, In f (files w) -> In (id f) avoid -> In (id f) selected ->
     In (id f) (map id rest) \/ terminal f) /\
  (forall f, In f (files w) -> ~ In (id f) selected -> untouched origin f) /\
  (forall f, In f origin -> In (id f) keep -> ~ In (id f) selected ->
     In f (files w)).

(** *** Two claims as the specification words them *)

(** Every Completed job of the state has its four result fields, with an
    intensity between 1 and 10. *)
Definition completedInRange (s : Sys) : Prop :=
  forall f, In f (files (world s)) -> status f = COMPLETED ->
    emotionType f <> None /\ voiceIdentity f <> None /\ reasoning f <> None /\
    exists level, emotionLevel f = Some level /\ (1 <= level <= 10)%Z.

(** A rejected encoding, whatever the value it rejects with, ends the retry
    loop at once: no further await, and the job Failed under the generic
    label. *)
Definition encodeFailureIsFinal (audioFile : AudioFile) (env : Env) (n : nat)
  (w : World) : Prop :=
  forall e, answer env n _ (fileToBase64 (file audioFile)) = Rejected e ->
    let w' := worldAfter (whileLoop (S maxRetries) audioFile 0) env n w in
    log w' = log w ++ [Encoded (file audioFile) (Rejected e)] /\
    forall f, In f (files w') -> id f = id audioFile ->
      status f = FAILED /\ error f = Some genericLabel.

(** *** Sample inputs *)

Definition sampleFile : File :=
  {| fileName := "a.wav"; fileSize := 1024; fileType := "audio/wav" |}.

(** A job as it is right after its file was chosen. *)
Definition sampleJob : AudioFile :=
  {| id := "x"; file := sampleFile; name := "a.wav"; size := "1 KB";
     status := IDLE;
     emotionType := None; emotionLevel := None;
     voiceIdentity := None; reasoning := None; error := None |}.

Definition sampleWorld : World :=
  {| files := [sampleJob]; isProcessing := false; log := [] |}.

(** The user does nothing; encoding works; awaits are answered by [infer]
    and [encode]. *)
Definition quietEnv (encode : settled string) (infer : settled AnalysisResult.t) : Env :=
  {| meanwhile := fun _ => [];
     answer := fun _ X c =>
       match c in call T return T with
       | fileToBase64 _ => encode
       | analyzeAudioEmotion _ _ => infer
       | sleep _ => tt
       end |}.

(** A result as the prompt asks for it. *)
Definition sampleResult : AnalysisResult.t :=
  AnalysisResult.mk (Some "joy") (Some 5%Z) (Some "young woman") (Some "bright tone").

Definition exhausted : JsError := {| message := Some "RESOURCE_EXHAUSTED" |}.
Definition tooMany : JsError := {| message := Some "429 Too Many Requests" |}.
Definition unreadable : JsError := {| message := Some "NotReadableError" |}.

(** Every inference is rejected with the resource-exhaustion mark alone. *)
Definition exhaustedEnv : Env := quietEnv (Fulfilled "UklGRg==") (Rejected exhausted).

(** The first two inferences (awaits 1 and 4 of the run) are rejected with
    a message that contains 429; the third (await 7) yields a result. *)
Definition twiceThrottledEnv : Env :=
  {| meanwhile := fun _ => [];
     answer := fun n X c =>
       match c in call T return T with
       | fileToBase64 _ => Fulfilled "UklGRg=="
       | analyzeAudioEmotion _ _ =>
           if (n <? 6)%nat then Rejected tooMany
           else Fulfilled sampleResult
       | sleep _ => tt
       end |}.

(** As [exhaustedEnv], and the user chooses one more file while the first
    await of the run is pending. *)
Definition addingEnv : Env :=
  {| meanwhile := fun n =>
       match n with
       | O => [PickFiles [("n", sampleFile)]]
       | S _ => []
       end;
     answer := answer exhaustedEnv |}.

(** Every encoding is rejected with a message that contains 429. *)
Definition encode429Env : Env :=
  quietEnv (Rejected tooMany)
           (Fulfilled sampleResult).

(** Every encoding is rejected with a message without a rate-limit mark. *)
Definition unreadableEnv : Env :=
  quietEnv (Rejected unreadable)
           (Fulfilled sampleResult).

(** Every inference yields a result whose intensity is 11. *)
Definition loudResult : AnalysisResult.t :=
  AnalysisResult.mk (Some "anger") (Some 11%Z) (Some "middle-aged man") (Some "shouting").
Definition loudEnv : Env := quietEnv (Fulfilled "UklGRg==") (Fulfilled loudResult).

(** One file is chosen, the run is started, and its two awaits settle. *)
Definition loudSchedule : list label :=
  [User (PickFiles [("x", sampleFile)]); Click;
   Settle 0 (answer loudEnv 0); Settle 0 (answer loudEnv 1)].

(** Every inference yields the empty object: the response text is a pair
    of braces, which [JSON.parse] accepts. *)
Definition emptyResult : AnalysisResult.t := AnalysisResult.mk None None None None.
Definition emptyEnv : Env := quietEnv (Fulfilled "UklGRg==") (Fulfilled emptyResult).

(** As [loudSchedule], with the empty object for the inference. *)
Definition emptySchedule : list label :=
  [User (PickFiles [("x", sampleFile)]); Click;
   Settle 0 (answer emptyEnv 0); Settle 0 (answer emptyEnv 1)].

(** As [loudSchedule], with a result as the prompt asks for it. *)
Definition sampleSchedule : list label :=
  [User (PickFiles [("x", sampleFile)]); Click;
   Settle 0 (answer (quietEnv (Fulfilled "UklGRg==") (Fulfilled sampleResult)) 0);
   Settle 0 (answer (quietEnv (Fulfilled "UklGRg==") (Fulfilled sampleResult)) 1)].

Definition sampleFormat : Z -> string := fun _ => "1 KB".

(** A queue with one job of each kind that a run can find. *)
Definition mixedWorld : World :=
  {| files :=
       [sampleJob;
        {| id := "y"; file := sampleFile; name := "b.wav"; size := "1 KB";
           status := COMPLETED;
           emotionType := Some "joy"; emotionLevel := Some 5%Z;
           voiceIdentity := Some "young woman"; reasoning := Some "bright tone";
           error := None |};
        {| id := "z"; file := sampleFile; name := "c.wav"; size := "1 KB";
           status := FAILED;
           emotionType := None; emotionLevel := None;
           voiceIdentity := None; reasoning := None;
           error := Some genericLabel |}];
     isProcessing := false;
     log := [] |}.

(** A queue whose only job is Completed. *)
Definition doneWorld : World :=
  {| files :=
       [{| id := "y"; file := sampleFile; name := "b.wav"; size := "1 KB";
           status := COMPLETED;
           emotionType := Some "joy"; emotionLevel := Some 5%Z;
           voiceIdentity := Some "young woman"; reasoning := Some "bright tone";
           error := None |}];
     isProcessing := false;
     log := [] |}.

(** A queue of two files is chosen and the run is started. *)
Definition busySchedule : list label :=
  [User (PickFiles [("x", sampleFile); ("y", sampleFile)]); Click].

(** *** Measures of a log *)

Definition isEncoding (e : event) : bool :=
  match e with Encoded _ _ => true | _ => false end.
Definition isInference (e : event) : bool :=
  match e with Inferred _ _ _ => true | _ => false end.
(** The pause between two jobs. *)
Definition isPause (e : event) : bool :=
  match e with Slept ms => (ms =? 1500)%Z | _ => false end.

Definition count (p : event -> bool) (lg : list event) : nat := length (filter p lg).

(** The milliseconds slept, backoff and pauses together. *)
Fixpoint timeSlept (lg : list event) : Z :=
  match lg with
  | [] => 0
  | Slept ms :: rest => ms + timeSlept rest
  | _ :: rest => timeSlept rest
  end.

(** *** More predicates on handlers and worlds *)

(** Every write of [p] to the queue keeps the key of every job, in place. *)
Fixpoint keepsKeys {A : Type} (p : proc A) : Prop :=
  match p with
  | Ret _ => True
  | GetIsProcessing k => forall b, keepsKeys (k b)
  | SetIsProcessing _ k => keepsKeys k
  | GetFiles k => forall fs, keepsKeys (k fs)
  | SetFiles upd k => (forall fs, map jobKey (upd fs) = map jobKey fs) /\ keepsKeys k
  | Await _ k => forall r, keepsKeys (k r)
  end.

(** [p] never reads the component state. *)
Fixpoint stateBlind {A : Type} (p : proc A) : Prop :=
  match p with
  | Ret _ => True
  | GetIsProcessing _ => False
  | SetIsProcessing _ k => stateBlind k
  | GetFiles _ => False
  | SetFiles _ k => stateBlind k
  | Await _ k => forall r, stateBlind (k r)
  end.

(** The two environments give the same answers to the awaits. *)
Definition sameAnswers (env env' : Env) : Prop :=
  forall n (X : Type) (c : call X), answer env n X c = answer env' n X c.

(** The user removes no row. *)
Definition noRemoval (w : World) (a : action) : Prop :=
  match a with
  | PickFiles _ => True
  | RemoveRow _ => False
  end.

Definition neverRemovesAny (env : Env) : Prop :=
  forall n target, ~ In (RemoveRow target) (meanwhile env n).

(** A Failed job carries one of the two labels of [errorLabel]. *)
Definition labelled (f : AudioFile) : Prop :=
  status f = FAILED ->
  error f = Some rateLimitLabel \/ error f = Some genericLabel.

Definition labelledRunning (w : World) : Prop := running w /\ Forall labelled (files w).
Definition labelledIdle (w : World) : Prop := notRunning w /\ Forall labelled (files w).

(** The number of awaits that [p], started in [w], makes until it returns. *)
Definition awaitsOf {A : Type} (p : proc A) (env : Env) (w : World) : nat :=
  snd (run p env 0 w).

(** What the user does, according to [env], at one of the first [awaits]
    awaits of the run. *)
Definition ofEnv (env : Env) (awaits : nat) (w : World) (a : action) : Prop :=
  exists n, n < awaits /\ In a (meanwhile env n).

(** [f] is the job made for a file that the user chose, according to
    [env], at one of the first [awaits] awaits of the run. *)
Definition addedBy (env : Env) (awaits : nat) (f : AudioFile) : Prop :=
  exists n picked rf,
    n < awaits /\
    In (PickFiles picked) (meanwhile env n) /\ In rf picked /\ f = newFile rf.

(** With [rest] still to do, an Idle job of the queue is one of [rest] or a
    file added during the run. *)
Definition idleIsNew (env : Env) (awaits : nat) (rest : list AudioFile) (w : World) : Prop :=
  forall f, In f (files w) -> status f = IDLE ->
    In (id f) (map id rest) \/ addedBy env awaits f.

(** [e] was logged after [base]. *)
Definition loggedSince (base lg : list event) (e : event) : Prop :=
  exists pre post, lg = base ++ pre ++ e :: post.

(** The run has brought the selected job [f0] to its end, and [f] is what it
    wrote: the job as the run made it Processing, then either Completed
    with a result that an inference on its file yielded after [base], or
    Failed under one of the two labels. *)
Definition written (base lg : list event) (f0 f : AudioFile) : Prop :=
  (exists b result,
      loggedSince base lg (Inferred b (fileType (file f0)) (Fulfilled result)) /\
      f = toCompleted result (toProcessing f0)) \/
  (exists label,
      (label = rateLimitLabel \/ label = genericLabel) /\
      f = toFailed label (toProcessing f0)).

(** Between jobs, with [rest] still to do, for a run started with the log
    [base] on the working set [pending]: a job of the queue under the
    identifier of a selected job is that job, still to do, or what the run
    wrote of it. *)
Definition writtenTop (base : list event) (pending : list AudioFile)
  (avoid keep : list string) (rest : list AudioFile) (w : World) : Prop :=
  incl rest pending /\ NoDup (map id rest) /\
  (exists d, log w = base ++ d) /\
  (forall f0, In f0 pending -> In (id f0) keep -> In (id f0) (map id (files w))) /\
  (forall f0 f, In f0 pending -> In (id f0) avoid ->
     In f (files w) -> id f = id f0 ->
     (In f0 rest /\ f = f0) \/ (~ In f0 rest /\ written base (log w) f0 f)).

(** While [x] is processed. *)
Definition writtenMid (base : list event) (pending : list AudioFile)
  (avoid keep : list string) (x : AudioFile) (rest : list AudioFile) (w : World) : Prop :=
  incl (x :: rest) pending /\ NoDup (map id (x :: rest)) /\
  (exists d, log w = base ++ d) /\
  (forall f0, In f0 pending -> In (id f0) keep -> In (id f0) (map id (files w))) /\
  (forall f0 f, In f0 pending -> In (id f0) avoid ->
     In f (files w) -> id f = id f0 ->
     (f0 = x /\ f = toProcessing x) \/
     (In f0 rest /\ f = f0) \/
     (~ In f0 (x :: rest) /\ written base (log w) f0 f)).

(** The queue is [origin], position by position with the same keys and with
    the jobs outside [selected] as they were, followed by added files. *)
Definition grownFrom (selected : list string) (origin : list AudioFile)
  (rest : list AudioFile) (w : World) : Prop :=
  incl (map id rest) selected /\
  exists kept added,
    files w = kept ++ added /\
    Forall2 (fun f0 f1 => jobKey f1 = jobKey f0 /\
                          (~ In (id f0) selected -> f1 = f0)) origin kept.

(** The jobs shown as being processed. *)
Definition processingJobs (fs : list AudioFile) : list AudioFile :=
  filter (fun f => status_eqb (status f) PROCESSING) fs.

(** No run is active and no job is Processing. *)
Definition settledIdle (w : World) : Prop :=
  notRunning w /\ forall f, In f (files w) -> status f <> PROCESSING.

(** A run is active and the jobs that are Processing bear one identifier. *)
Definition oneInHand (w : World) : Prop :=
  running w /\ exists x, forall f, In f (files w) -> status f = PROCESSING -> id f = x.

(** Every parked handler keeps the keys from its await on. *)
Definition parkedKeepKeys (s : Sys) : Prop :=
  Forall (fun q => match q with Parked c k => forall r, keepsKeys (k r) end) (inflight s).

(** ** Basic facts *)

Lemma log_acts (w : World) (l : list action) : log (acts w l) = log w.
Proof.
  revert w; induction l as [|a l IH]; intros w; [reflexivity|].
  unfold acts in *; simpl. rewrite IH. destruct a; reflexivity.
Qed.

Lemma isProcessing_acts (w : World) (l : list action) :
  isProcessing (acts w l) = isProcessing w.
Proof.
  revert w; induction l as [|a l IH]; intros w; [reflexivity|].
  unfold acts in *; simpl. rewrite IH. destruct a; reflexivity.
Qed.

Lemma acts_app (w : World) (l1 l2 : list action) :
  acts w (l1 ++ l2) = acts (acts w l1) l2.
Proof. unfold acts. apply fold_left_app. Qed.

Lemma okActs_app allowed (w : World) (l1 l2 : list action) :
  okActs allowed w (l1 ++ l2) <-> okActs allowed w l1 /\ okActs allowed (acts w l1) l2.
Proof.
  revert w; induction l1 as [|a l1 IH]; intros w; simpl.
  - tauto.
  - rewrite IH. unfold acts; simpl. tauto.
Qed.

Section Logic.

Variable allowed : World -> action -> Prop.
Variable Inv : World -> Prop.

Lemma wp_mono {A : Type} (p : proc A) (Q Q' : A -> World -> Prop) :
  (forall a w, Q a w -> Q' a w) ->
  forall w, wp allowed Inv p Q w -> wp allowed Inv p Q' w.
Proof.
  intros HQ. induction p as [a|k IH|b k IH|k IH|upd k IH|X c k IH]; simpl; intros w H; eauto.
  destruct H as [Hi H]. split; [exact Hi|]. intros l r Hl. apply IH, H, Hl.
Qed.

Lemma wp_bind {A B : Type} (m : proc A) (f : A -> proc B) (Q : B -> World -> Prop) :
  forall w, wp allowed Inv (bind m f) Q w <->
            wp allowed Inv m (fun a w' => wp allowed Inv (f a) Q w') w.
Proof.
  induction m as [a|k IH|b k IH|k IH|upd k IH|X c k IH]; simpl; intros w;
    try reflexivity; try apply IH.
  split; intros [Hi H]; (split; [exact Hi|]); intros l r Hl; apply IH, H, Hl.
Qed.

Lemma wp_await {X : Type} (c : call X) (Q : X -> World -> Prop) (w : World) :
  wp allowed Inv (await c) Q w <->
  Inv w /\ forall l r, okActs allowed w l -> Q r (record (eventOf c r) (acts w l)).
Proof. reflexivity. Qed.

Lemma wp_setFiles (upd : list AudioFile -> list AudioFile)
  (Q : unit -> World -> Prop) (w : World) :
  wp allowed Inv (setFiles upd) Q w <-> Q tt (withFiles (upd (files w)) w).
Proof. reflexivity. Qed.

Lemma wp_setIsProcessing (b : bool) (Q : unit -> World -> Prop) (w : World) :
  wp allowed Inv (setIsProcessing b) Q w <-> Q tt (withIsProcessing b w).
Proof. reflexivity. Qed.

(** Soundness for a run: a handler proved with [wp] returns in a world
    satisfying its postcondition. *)
Lemma wp_run {A : Type} (p : proc A) (Q : A -> World -> Prop) (env : Env) :
  envKeeps allowed env ->
  forall n w, wp allowed Inv p Q w ->
    Q (fst (fst (run p env n w))) (snd (fst (run p env n w))).
Proof.
  intros Henv.
  induction p as [a|k IH|b k IH|k IH|upd k IH|X c k IH]; simpl; intros n w H; eauto.
  destruct H as [_ H]. apply IH, H, Henv.
Qed.

(** The awaits of a run are counted upwards. *)
Lemma run_counter {A : Type} (p : proc A) (env : Env) :
  forall n w, n <= snd (run p env n w).
Proof.
  induction p as [a|k IH|b k IH|k IH|upd k IH|X c k IH]; simpl; intros n w; eauto.
  specialize (IH (answer env n X c) (S n)
                 (record (eventOf c (answer env n X c)) (acts w (meanwhile env n)))).
  lia.
Qed.

(** Soundness for a run, where only what the user does at the awaits that
    the run makes is known to be [allowed]. *)
Lemma wp_run_upto {A : Type} (p : proc A) (Q : A -> World -> Prop) (env : Env) :
  forall n w,
    (forall m w0, n <= m < snd (run p env n w) -> okActs allowed w0 (meanwhile env m)) ->
    wp allowed Inv p Q w ->
    Q (fst (fst (run p env n w))) (snd (fst (run p env n w))).
Proof.
  induction p as [a|k IH|b k IH|k IH|upd k IH|X c k IH]; simpl; intros n w Henv H; eauto.
  destruct H as [_ H].
  assert (Hn := run_counter (k (answer env n X c)) env (S n)
                  (record (eventOf c (answer env n X c)) (acts w (meanwhile env n)))).
  apply IH.
  - intros m w0 Hm. apply Henv. lia.
  - apply H, Henv. lia.
Qed.

(** Soundness for the event loop: a handler proved with [wp] either returns
    within the current turn, or parks at an await with [Inv] and a
    continuation that is again proved. *)
Lemma wp_advance (p : proc unit) (Q : unit -> World -> Prop) (w : World) :
  wp allowed Inv p Q w ->
  match advance p w with
  | (w', None) => Q tt w'
  | (w', Some (Parked c k)) =>
      Inv w' /\
      forall l r, okActs allowed w' l ->
        wp allowed Inv (k r) Q (record (eventOf c r) (acts w' l))
  end.
Proof.
  revert w.
  induction p as [a|k IH|b k IH|k IH|upd k IH|X c k IH]; simpl; intros w H.
  - destruct a; exact H.
  - apply IH, H.
  - apply IH, H.
  - apply IH, H.
  - apply IH, H.
  - exact H.
Qed.

End Logic.

(** [run] of a sequence is the sequence of the runs. *)
Lemma run_bind {A B : Type} (m : proc A) (f : A -> proc B) (env : Env) :
  forall n w,
    run (bind m f) env n w =
    run (f (fst (fst (run m env n w)))) env (snd (run m env n w)) (snd (fst (run m env n w))).
Proof.
  induction m as [a|k IH|b k IH|k IH|upd k IH|X c k IH]; simpl; intros n w; eauto.
Qed.

(** A run is the event loop with one handler: it advances to its next
    await, the user acts, the await settles, and the run goes on. *)
Lemma run_advance (p : proc unit) (env : Env) :
  forall n w,
    run p env n w =
    match advance p w with
    | (w', None) => (tt, w', n)
    | (w', Some (Parked c k)) =>
        let r := answer env n _ c in
        run (k r) env (S n) (record (eventOf c r) (acts w' (meanwhile env n)))
    end.
Proof.
  induction p as [a|k IH|b k IH|k IH|upd k IH|X c k IH]; simpl; intros n w; auto.
  destruct a; reflexivity.
Qed.

Lemma steps_app (s : Sys) (ls1 ls2 : list label) :
  steps s (ls1 ++ ls2) = steps (steps s ls1) ls2.
Proof. unfold steps. apply fold_left_app. Qed.

Lemma steps_users (q : list parked) : forall l w,
  steps {| world := w; inflight := q |} (map User l) =
  {| world := acts w l; inflight := q |}.
Proof.
  induction l as [|a l IH]; intros w; [reflexivity|]. simpl. apply IH.
Qed.

(** Every run is a schedule of the event loop: the click, then, for each
    await of the run, what the user does meanwhile and the settling of the
    await. *)
Lemma advance_schedule (env : Env) (p : proc unit) :
  forall n w,
  exists ls,
    steps {| world := fst (advance p w); inflight := park (snd (advance p w)) [] |} ls =
    {| world := worldAfter p env n w; inflight := [] |}.
Proof.
  unfold worldAfter.
  induction p as [a|k IH|b k IH|k IH|upd k IH|X c k IH]; simpl; intros n w; auto.
  - exists []. reflexivity.
  - destruct (IH (answer env n X c) (S n)
                (record (eventOf c (answer env n X c)) (acts w (meanwhile env n))))
      as [ls Hls].
    exists (map User (meanwhile env n) ++ Settle 0 (answer env n) :: ls).
    rewrite steps_app, steps_users. simpl.
    destruct (advance (k (answer env n X c))
                (record (eventOf c (answer env n X c)) (acts w (meanwhile env n))))
      as [w1 r1]. exact Hls.
Qed.

Lemma run_is_schedule (env : Env) (w : World) :
  exists ls,
    steps {| world := w; inflight := [] |} (Click :: ls) =
    {| world := finalWorld processBatch env w; inflight := [] |}.
Proof.
  destruct (advance_schedule env processBatch 0 w) as [ls Hls].
  exists ls. unfold steps in *. cbn [fold_left step world inflight].
  destruct (advance processBatch w) as [w1 r1]. exact Hls.
Qed.

(** *** Strings *)

Lemma prefix_app (pat s : string) :
  String.prefix pat s = true <-> exists post, s = (pat ++ post)%string.
Proof.
  revert s; induction pat as [|c pat IH]; intros s; simpl.
  - split; [intros _; exists s; reflexivity | intros _; destruct s; reflexivity].
  - destruct s as [|d s]; simpl.
    + split; [discriminate | intros [post H]; discriminate].
    + destruct (Ascii.ascii_dec c d) as [->|Hcd].
      * rewrite IH. split; intros [post H]; exists post; [now subst | now inversion H].
      * split; [discriminate | intros [post H]; inversion H; congruence].
Qed.

Lemma includes_Contains (s pat : string) :
  includes s pat = true <-> Contains s pat.
Proof.
  unfold Contains. induction s as [|c s IH]; cbn [includes].
  - destruct (String.prefix pat "") eqn:Hp.
    + apply prefix_app in Hp as [post Hp]. split; [|reflexivity].
      intros _. exists "", post. exact Hp.
    + split; [discriminate|]. intros (pre & post & H).
      destruct pre; simpl in H; [|discriminate].
      assert (String.prefix pat "" = true) by (apply prefix_app; eauto).
      congruence.
  - destruct (String.prefix pat (String c s)) eqn:Hp.
    + apply prefix_app in Hp as [post Hp]. split; [|reflexivity].
      intros _. exists "", post. exact Hp.
    + rewrite IH. split.
      * intros (pre & post & ->). exists (String c pre), post. reflexivity.
      * intros (pre & post & H). destruct pre as [|d pre]; simpl in H.
        -- assert (String.prefix pat (String c s) = true) by (apply prefix_app; eauto).
           congruence.
        -- inversion H; subst. eauto.
Qed.

Lemma isRateLimit_Contains (e : JsError) :
  isRateLimit e = true <-> rateLimitMarked e.
Proof.
  unfold rateLimitMarked, isRateLimit, messageIncludes. destruct (message e) as [m|].
  - rewrite orb_true_iff, !includes_Contains. split.
    + intros H. exists m. split; [reflexivity | exact H].
    + intros (m' & Hm & H). inversion Hm; subst. exact H.
  - simpl. split; [discriminate | intros (m & Hm & _); discriminate].
Qed.

(** *** [mapJob] *)

Lemma in_mapJob (target : string) (patch : AudioFile -> AudioFile)
  (prev : list AudioFile) (f : AudioFile) :
  In f (mapJob target patch prev) <->
  exists f0, In f0 prev /\ f = (if String.eqb (id f0) target then patch f0 else f0).
Proof.
  unfold mapJob. rewrite in_map_iff. split; intros (f0 & H1 & H2); exists f0; auto.
Qed.

Lemma map_id_mapJob (target : string) (patch : AudioFile -> AudioFile)
  (prev : list AudioFile) :
  (forall f, id (patch f) = id f) ->
  map id (mapJob target patch prev) = map id prev.
Proof.
  intros Hp. unfold mapJob. rewrite map_map. apply map_ext.
  intros f. destruct (String.eqb (id f) target); auto.
Qed.

(** *** The log of the retry loop and of the run *)

Lemma whileLoop_trace (audioFile : AudioFile) :
  forall fuel retryCount w,
    retryCount <= maxRetries -> maxRetries < fuel + retryCount ->
    wp anyAction noInv (whileLoop fuel audioFile retryCount)
       (fun _ w' => loopPost audioFile retryCount w w') w.
Proof.
  induction fuel as [|fuel IH]; intros rc w Hrc Hfuel; [simpl in *; lia|].
  assert (Hfail : forall e (w1 : World) last,
             caught last = Some e ->
             log w1 = log w ++ attemptLog audioFile last ->
             isRateLimit e = false \/ rc = maxRetries ->
             wp anyAction noInv (markFailed audioFile e)
                (fun _ w' => loopPost audioFile rc w w') w1).
  { intros e w1 last Hc Hlog Hwhy. simpl. exists [], last. simpl.
    rewrite Hc, Nat.add_0_r. repeat split; auto.
    - apply in_mapJob in H as (f0 & _ & ->).
      destruct (String.eqb (id f0) (id audioFile)) eqn:E; [reflexivity|].
      apply String.eqb_neq in E. contradiction.
    - apply in_mapJob in H as (f0 & _ & ->).
      destruct (String.eqb (id f0) (id audioFile)) eqn:E; [reflexivity|].
      apply String.eqb_neq in E. contradiction. }
  assert (Hcatch : forall e (w1 : World) last,
             caught last = Some e ->
             log w1 = log w ++ attemptLog audioFile last ->
             wp anyAction noInv
                (if isRateLimit e
                 then if (S rc <=? maxRetries)%nat
                      then bind (await (sleep (Z.of_nat (S rc) * 5000)))
                                (fun _ => whileLoop fuel audioFile (S rc))
                      else markFailed audioFile e
                 else markFailed audioFile e)
                (fun _ w' => loopPost audioFile rc w w') w1).
  { intros e w1 last Hc Hlog.
    destruct (isRateLimit e) eqn:Hrl; [|eapply Hfail; eauto].
    destruct (S rc <=? maxRetries)%nat eqn:Hle.
    - apply Nat.leb_le in Hle. apply wp_bind, wp_await. split; [exact I|].
      intros l [] _. eapply wp_mono; [|apply IH; lia].
      intros _ w' (retried & last' & Hlog' & Hlen & Hall & Hlast).
      exists (last :: retried), last'. simpl. repeat split.
      + rewrite Hlog'. simpl. rewrite log_acts, Hlog, <- !app_assoc. reflexivity.
      + lia.
      + constructor; [|exact Hall].
        apply isRateLimit_Contains in Hrl. exists e. auto.
      + destruct (caught last'); [|exact Hlast].
        destruct Hlast as [Hwhy Hst]. split; [|exact Hst].
        destruct Hwhy; [left; assumption | right; lia].
    - apply Nat.leb_gt in Hle. eapply Hfail; eauto. right. lia. }
  cbn [whileLoop]. apply Nat.leb_le in Hrc as Hrc'. rewrite Hrc'.
  apply wp_bind. unfold tryBlock. apply wp_bind, wp_await. split; [exact I|].
  intros l [base64|e] _.
  - apply wp_bind, wp_await. split; [exact I|]. intros l' [result|e] _.
    + simpl. exists [], (Succeeded base64 result). simpl. repeat split.
      * rewrite !log_acts. simpl. rewrite log_acts, <- app_assoc. reflexivity.
      * lia.
      * constructor.
      * intros f Hin Hid. apply in_mapJob in Hin as (f0 & _ & ->).
        destruct (String.eqb (id f0) (id audioFile)) eqn:E; [reflexivity|].
        apply String.eqb_neq in E. contradiction.
    + simpl bind. apply (Hcatch e _ (InferFailed base64 e)); [reflexivity|].
      simpl. rewrite log_acts. simpl. rewrite log_acts, <- app_assoc. reflexivity.
  - simpl bind. apply (Hcatch e _ (EncodeFailed e)); [reflexivity|].
    simpl. rewrite log_acts. reflexivity.
Qed.

Lemma envKeeps_any (env : Env) : envKeeps anyAction env.
Proof.
  intros n w. generalize (meanwhile env n). intros l. revert w.
  induction l as [|a l IH]; intros w; simpl; [exact I|]. split; [exact I | apply IH].
Qed.

Lemma loopPost_segment (audioFile : AudioFile) (w w' : World) :
  loopPost audioFile 0 w w' ->
  exists seg, jobSegment audioFile seg /\ log w' = log w ++ seg.
Proof.
  intros (retried & last & Hlog & Hlen & Hall & Hlast).
  exists (retryRounds audioFile 1 retried ++ attemptLog audioFile last). split.
  - exists retried, last. repeat split; auto.
    intros e He. rewrite He in Hlast. destruct Hlast as [Hwhy _]. exact Hwhy.
  - exact Hlog.
Qed.

Lemma forLoop_trace :
  forall rest i len w,
    len = (i + Z.of_nat (length rest))%Z ->
    wp anyAction noInv (forLoop rest i len)
       (fun _ w' => exists segs,
            Forall2 jobSegment rest segs /\ log w' = log w ++ paced segs) w.
Proof.
  induction rest as [|audioFile rest IH]; intros i len w Hlen.
  - simpl. exists []. split; [constructor | now rewrite app_nil_r].
  - cbn [forLoop]. apply wp_bind, wp_setFiles, wp_bind.
    eapply wp_mono; [|apply whileLoop_trace; unfold maxRetries; lia].
    intros u w1 Hpost. apply loopPost_segment in Hpost as (seg & Hseg & Hlog1).
    simpl in Hlog1. apply wp_bind.
    destruct (i <? len - 1)%Z eqn:Hi.
    + apply Z.ltb_lt in Hi. apply wp_await. split; [exact I|]. intros l [] _.
      eapply wp_mono; [|apply IH; simpl length in Hlen; lia].
      intros _ w' (segs & Hsegs & Hlog'). exists (seg :: segs). split.
      * constructor; assumption.
      * destruct segs as [|seg' segs].
        -- inversion Hsegs as [Hrest|]. rewrite <- Hrest in Hlen.
           simpl length in Hlen. lia.
        -- rewrite Hlog'. simpl log. rewrite log_acts, Hlog1.
           cbn [paced]. rewrite <- !app_assoc. reflexivity.
    + apply Z.ltb_ge in Hi. destruct rest as [|x rest].
      * simpl. exists [seg]. split; [repeat constructor; assumption|]. exact Hlog1.
      * simpl length in Hlen. lia.
Qed.

Lemma processBatch_trace (w : World) :
  isProcessing w = false ->
  wp anyAction noInv processBatch
     (fun _ w' => exists segs,
          Forall2 jobSegment (filter isPending (files w)) segs /\
          log w' = log w ++ paced segs) w.
Proof.
  intros Hidle. unfold processBatch. simpl. rewrite Hidle. simpl.
  apply wp_bind. eapply wp_mono; [|apply forLoop_trace; lia].
  intros u w' H. exact H.
Qed.

(** The bound on [whileLoop] is never reached: any fuel above the number of
    retries still allowed gives the same run. *)
Lemma whileLoop_fuel (audioFile : AudioFile) (env : Env) :
  forall fuel fuel' retryCount n w,
    maxRetries < fuel + retryCount -> maxRetries < fuel' + retryCount ->
    run (whileLoop fuel audioFile retryCount) env n w =
    run (whileLoop fuel' audioFile retryCount) env n w.
Proof.
  induction fuel as [|fuel IH]; intros fuel' rc n w H H'.
  - destruct fuel' as [|fuel']; [reflexivity|]. cbn [whileLoop].
    destruct (rc <=? maxRetries)%nat eqn:E; [|reflexivity].
    apply Nat.leb_le in E. simpl in H. lia.
  - destruct fuel' as [|fuel']; cbn [whileLoop];
      (destruct (rc <=? maxRetries)%nat eqn:E; [|reflexivity]).
    + apply Nat.leb_le in E. simpl in H'. lia.
    + rewrite !run_bind. destruct (fst (fst (run (tryBlock audioFile) env n w))) as [?|e];
        [reflexivity|].
      destruct (isRateLimit e); [|reflexivity].
      destruct (S rc <=? maxRetries)%nat eqn:E'; [|reflexivity].
      rewrite !run_bind. apply IH; lia.
Qed.

(** *** The protocol of a run

    Whatever happens, the writes of a run follow one protocol: for each
    selected job in turn, one write to Processing, then awaits, then one
    write to Completed (right after the inference that yielded the result)
    or to Failed, then at most one pause.  [Top rest] is what holds between
    jobs, with [rest] still to do; [Mid x rest] is what holds while [x] is
    being processed. *)

Section Protocol.

Variable allowed : World -> action -> Prop.
Variable Inv : World -> Prop.
Variable Top : list AudioFile -> World -> Prop.
Variable Mid : AudioFile -> list AudioFile -> World -> Prop.

Hypothesis start_job : forall x rest w,
  Top (x :: rest) w ->
  Mid x rest (withFiles (mapJob (id x) toProcessing (files w)) w).
Hypothesis mid_inv : forall x rest w, Mid x rest w -> Inv w.
Hypothesis mid_act : forall x rest w a,
  Mid x rest w -> allowed w a -> Mid x rest (act w a).
Hypothesis mid_record : forall x rest w e,
  Mid x rest w -> Mid x rest (record e w).
Hypothesis complete_job : forall x rest w b result,
  Mid x rest w ->
  let w' := record (Inferred b (fileType (file x)) (Fulfilled result)) w in
  Top rest (withFiles (mapJob (id x) (toCompleted result) (files w')) w').
Hypothesis fail_job : forall x rest w e,
  Mid x rest w ->
  Top rest (withFiles (mapJob (id x) (toFailed (errorLabel e)) (files w)) w).
Hypothesis top_inv : forall rest w, Top rest w -> Inv w.
Hypothesis top_act : forall rest w a,
  Top rest w -> allowed w a -> Top rest (act w a).
Hypothesis top_record : forall rest w e, Top rest w -> Top rest (record e w).

Lemma mid_acts x rest : forall l w,
  Mid x rest w -> okActs allowed w l -> Mid x rest (acts w l).
Proof.
  induction l as [|a l IH]; intros w Hm Hl; [exact Hm|].
  destruct Hl as [Ha Hl]. apply (IH (act w a)); eauto.
Qed.

Lemma top_acts rest : forall l w,
  Top rest w -> okActs allowed w l -> Top rest (acts w l).
Proof.
  induction l as [|a l IH]; intros w Hm Hl; [exact Hm|].
  destruct Hl as [Ha Hl]. apply (IH (act w a)); eauto.
Qed.

Lemma protocol_while (x : AudioFile) (rest : list AudioFile) :
  forall fuel retryCount w,
    retryCount <= maxRetries -> maxRetries < fuel + retryCount ->
    Mid x rest w ->
    wp allowed Inv (whileLoop fuel x retryCount) (fun _ w' => Top rest w') w.
Proof.
  induction fuel as [|fuel IH]; intros rc w Hrc Hfuel Hmid; [simpl in *; lia|].
  assert (Hcatch : forall e w1, Mid x rest w1 ->
             wp allowed Inv
                (if isRateLimit e
                 then if (S rc <=? maxRetries)%nat
                      then bind (await (sleep (Z.of_nat (S rc) * 5000)))
                                (fun _ => whileLoop fuel x (S rc))
                      else markFailed x e
                 else markFailed x e)
                (fun _ w' => Top rest w') w1).
  { intros e w1 Hm1.
    destruct (isRateLimit e); [|apply wp_setFiles, fail_job, Hm1].
    destruct (S rc <=? maxRetries)%nat eqn:Hle; [|apply wp_setFiles, fail_job, Hm1].
    apply Nat.leb_le in Hle. apply wp_bind, wp_await. split; [eauto|].
    intros l [] Hl. apply IH; [lia | lia |]. apply mid_record, mid_acts; assumption. }
  cbn [whileLoop]. apply Nat.leb_le in Hrc as Hrc'. rewrite Hrc'.
  apply wp_bind. unfold tryBlock. apply wp_bind, wp_await. split; [eauto|].
  intros l [base64|e] Hl.
  - apply wp_bind, wp_await.
    assert (Hm1 : Mid x rest (record (Encoded (file x) (Fulfilled base64)) (acts w l)))
      by (apply mid_record, mid_acts; assumption).
    split; [eauto|]. intros l' [result|e] Hl'.
    + simpl. apply (complete_job x rest _ base64 result). apply mid_acts; assumption.
    + simpl bind. apply Hcatch. apply mid_record, mid_acts; assumption.
  - simpl bind. apply Hcatch. apply mid_record, mid_acts; assumption.
Qed.

Lemma protocol_for :
  forall rest i len w,
    Top rest w -> wp allowed Inv (forLoop rest i len) (fun _ w' => Top [] w') w.
Proof.
  induction rest as [|x rest IH]; intros i len w Htop; [exact Htop|].
  cbn [forLoop]. apply wp_bind, wp_setFiles, wp_bind.
  eapply wp_mono; [|apply (protocol_while x rest); [unfold maxRetries; lia ..|]; eauto].
  intros u w1 Htop1. apply wp_bind. destruct (i <? len - 1)%Z.
  - apply wp_await. split; [apply (top_inv rest), Htop1|]. intros l [] Hl.
    apply IH. apply top_record, top_acts; assumption.
  - simpl. apply IH, Htop1.
Qed.

Lemma protocol_processBatch (w : World) :
  isProcessing w = false ->
  Top (filter isPending (files w)) (withIsProcessing true w) ->
  wp allowed Inv processBatch
     (fun _ w' => exists w1, Top [] w1 /\ w' = withIsProcessing false w1) w.
Proof.
  intros Hidle Htop. unfold processBatch. simpl. rewrite Hidle. simpl.
  apply wp_bind. eapply wp_mono; [|apply protocol_for, Htop].
  intros u w1 Htop1. simpl. exists w1. split; [exact Htop1 | reflexivity].
Qed.

End Protocol.

(** *** The invariant of the event loop *)

Section EventLoop.

Variable allowed : World -> action -> Prop.
Variable Inv Idle : World -> Prop.

Hypothesis idle_flag : forall w, Idle w -> isProcessing w = false.
Hypothesis idle_run : forall w,
  Idle w -> wp allowed Inv processBatch (fun _ w' => Idle w') w.
Hypothesis idle_act : forall w a, Idle w -> allowed w a -> Idle (act w a).
Hypothesis idle_clear : forall w confirmed,
  Idle w -> Idle (withFiles (clearAll confirmed (files w)) w).
Hypothesis inv_flag : forall w, Inv w -> isProcessing w = true.
Hypothesis inv_act : forall w a, Inv w -> allowed w a -> Inv (act w a).

Lemma inv_acts : forall l w, Inv w -> okActs allowed w l -> Inv (acts w l).
Proof.
  induction l as [|a l IH]; intros w Hi Hl; [exact Hi|].
  destruct Hl as [Ha Hl]. apply (IH (act w a)); eauto.
Qed.

(** A handler that finds [isProcessing] set returns at once. *)
Lemma advance_processBatch_busy (w : World) :
  isProcessing w = true -> advance processBatch w = (w, None).
Proof. intros H. unfold processBatch. simpl. rewrite H. reflexivity. Qed.

Lemma LoopInv_step (s : Sys) (l : label) :
  LoopInv allowed Inv Idle s -> validLabel allowed s l ->
  LoopInv allowed Inv Idle (step s l).
Proof.
  intros [[Hin Hidle] | (X & c & k & w0 & acted & Hin & Hi0 & Hok & Hw & Hk)] Hl.
  - (* no run in flight *)
    destruct l as [|a|confirmed|i ans]; cbn [step world inflight].
    + pose proof (wp_advance _ _ _ _ _ (idle_run _ Hidle)) as H.
      destruct (advance processBatch (world s)) as [w' [[Y c k]|]]; rewrite Hin; simpl.
      * destruct H as [Hi H]. right. exists Y, c, k, w', []. repeat split; auto.
      * left. split; [reflexivity | exact H].
    + left. split; [exact Hin | apply idle_act; assumption].
    + rewrite (idle_flag _ Hidle). left. split; [exact Hin | apply idle_clear, Hidle].
    + rewrite Hin. destruct i; simpl; left; split; assumption.
  - (* one run in flight *)
    assert (Hnow : Inv (world s)) by (rewrite Hw; apply inv_acts; assumption).
    destruct l as [|a|confirmed|i ans]; cbn [step world inflight].
    + rewrite (advance_processBatch_busy _ (inv_flag _ Hnow)). rewrite Hin. simpl.
      right. exists X, c, k, w0, acted. repeat split; auto.
    + right. exists X, c, k, w0, (acted ++ [a]). repeat split; auto.
      * apply okActs_app. split; [exact Hok|]. simpl. rewrite <- Hw. split; [exact Hl | exact I].
      * rewrite acts_app, <- Hw. reflexivity.
    + rewrite (inv_flag _ Hnow). right. exists X, c, k, w0, acted. repeat split; auto.
    + rewrite Hin. destruct i as [|i]; simpl.
      * pose proof (wp_advance _ _ _ _ _ (Hk acted (ans X c) Hok)) as H.
        rewrite <- Hw in H.
        destruct (advance (k (ans X c)) (record (eventOf c (ans X c)) (world s)))
          as [w' [[Y c' k']|]]; simpl.
        -- destruct H as [Hi H]. right. exists Y, c', k', w', []. repeat split; auto.
        -- left. split; [reflexivity | exact H].
      * destruct i; simpl; right; exists X, c, k, w0, acted; repeat split; auto;
          rewrite Hin; reflexivity.
Qed.

Lemma LoopInv_now (s : Sys) :
  LoopInv allowed Inv Idle s -> Idle (world s) \/ Inv (world s).
Proof.
  intros [[_ H] | (X & c & k & w0 & acted & _ & Hi0 & Hok & Hw & _)]; [left; exact H|].
  right. rewrite Hw. apply inv_acts; assumption.
Qed.

Lemma LoopInv_steps : forall ls s,
  LoopInv allowed Inv Idle s -> validFrom allowed s ls ->
  LoopInv allowed Inv Idle (steps s ls).
Proof.
  induction ls as [|l ls IH]; intros s Hs Hv; [exact Hs|].
  destruct Hv as [Hl Hv]. simpl. apply IH; [apply LoopInv_step; assumption | exact Hv].
Qed.

End EventLoop.

(** *** The reentrancy guard *)

Lemma processBatch_flag (w : World) :
  notRunning w ->
  wp anyAction running processBatch (fun _ w' => notRunning w') w.
Proof.
  intros Hidle.
  eapply wp_mono;
    [| apply (protocol_processBatch anyAction running
                (fun _ w => running w) (fun _ _ w => running w));
       try exact Hidle; try reflexivity; intros;
       try match goal with a : action |- _ => destruct a end; assumption].
  intros u w' (w1 & _ & ->). reflexivity.
Qed.

Lemma guard_invariant (ls : list label) :
  LoopInv anyAction running notRunning (steps mounted ls).
Proof.
  apply LoopInv_steps.
  - exact (fun w H => H).
  - exact processBatch_flag.
  - intros w [] H _; exact H.
  - intros w confirmed H; exact H.
  - exact (fun w H => H).
  - intros w [] H _; exact H.
  - left. split; reflexivity.
  - generalize mounted. induction ls as [|l ls IH]; intros s; simpl; [exact I|].
    split; [destruct l; exact I | apply IH].
Qed.

(** C10. Invoking [processBatch] while a run is active is a no-op, so that
    at every moment at most one run is in flight: in every state the event
    loop can reach from the mounted component, whatever the user does and
    whatever the awaits yield, at most one run is parked; [isProcessing] is
    set exactly when one is; and while it is set a further invocation of
    [processBatch] leaves the state as it is (same queue, same log of
    awaits, no second run). *)
Theorem reentrancy_guard (ls : list label) :
  let s := steps mounted ls in
  length (inflight s) <= 1 /\
  isProcessing (world s) = negb (Nat.eqb (length (inflight s)) 0) /\
  (isProcessing (world s) = false \/ step s Click = s).
Proof.
  intros s. subst s. generalize (guard_invariant ls).
  generalize (steps mounted ls). intros [w parkedRuns].
  intros [[Hin Hidle] | (X & c & k & w0 & acted & Hin & Hi0 & Hok & Hw & Hk)];
    simpl in Hin; subst parkedRuns; simpl in *.
  - repeat split; auto.
  - assert (Hrun : isProcessing w = true)
      by (rewrite Hw, isProcessing_acts; exact Hi0).
    repeat split; auto. right.
    unfold step. unfold processBatch. simpl. rewrite Hrun. reflexivity.
Qed.

(** *** Well-formed queues *)

Lemma NoDup_map_filter {T U : Type} (g : T -> U) (p : T -> bool) (l : list T) :
  NoDup (map g l) -> NoDup (map g (filter p l)).
Proof.
  induction l as [|x l IH]; simpl; intros H; [constructor|].
  inversion H as [|? ? Hx Hl]; subst. destruct (p x); simpl; auto.
  constructor; auto. intros Hin. apply Hx.
  apply in_map_iff in Hin as (y & Hy & Hin). apply filter_In in Hin as [Hin _].
  apply in_map_iff. eauto.
Qed.

Lemma NoDup_map_inj {T U : Type} (g : T -> U) (l : list T) (x y : T) :
  NoDup (map g l) -> In x l -> In y l -> g x = g y -> x = y.
Proof.
  induction l as [|z l IH]; simpl; intros H Hx Hy Hg; [contradiction|].
  inversion H as [|? ? Hz Hl]; subst.
  destruct Hx as [->|Hx], Hy as [->|Hy]; auto.
  - exfalso. apply Hz. rewrite Hg. apply in_map, Hy.
  - exfalso. apply Hz. rewrite <- Hg. apply in_map, Hx.
Qed.

Lemma jobFields_newFile (rf : string * File) : jobFields (newFile rf).
Proof.
  unfold jobFields, noResult; simpl. split; [auto|]. split; intros; congruence.
Qed.

Lemma jobFields_toProcessing (f : AudioFile) :
  jobFields f -> status f <> COMPLETED -> jobFields (toProcessing f).
Proof.
  unfold jobFields, noResult; simpl. intros [H1 H2] Hs.
  split; [auto|]. split; intros; congruence.
Qed.

Lemma jobFields_toCompleted (result : AnalysisResult.t) (f : AudioFile) :
  jobFields f -> status f <> FAILED -> jobFields (toCompleted result f).
Proof.
  unfold jobFields, noResult; simpl. intros [H1 H2] Hs.
  split; [congruence|]. split; [tauto | discriminate].
Qed.

Lemma jobFields_toFailed (label : string) (f : AudioFile) :
  jobFields f -> status f <> COMPLETED -> jobFields (toFailed label f).
Proof.
  unfold jobFields, noResult; simpl. intros [H1 H2] Hs.
  split; [auto|]. split; [reflexivity | discriminate].
Qed.

Lemma isPending_status (f : AudioFile) :
  isPending f = true <-> status f = IDLE \/ status f = FAILED.
Proof.
  unfold isPending. destruct (status f); simpl; split; intros H; auto;
    try discriminate; destruct H; discriminate.
Qed.

Lemma fromInference_mono (lg lg' : list event) (f : AudioFile) :
  incl lg lg' -> fromInference lg f -> fromInference lg' f.
Proof.
  intros Hincl H Hs. destruct (H Hs) as (b & m & result & Hin & Hr).
  exists b, m, result. split; [apply Hincl, Hin | exact Hr].
Qed.

Lemma wellFormed_record (w : World) (e : event) :
  wellFormed w -> wellFormed (record e w).
Proof.
  intros (Hnd & Hinv & Hlog). repeat split; auto. simpl.
  eapply Forall_impl; [|exact Hlog]. intros f. apply fromInference_mono.
  apply incl_appl, incl_refl.
Qed.

Lemma wellFormed_act (w : World) (a : action) :
  wellFormed w -> freshPick w a -> wellFormed (act w a).
Proof.
  intros (Hnd & Hinv & Hlog) Ha. destruct a as [picked|target]; simpl.
  - destruct Ha as [Hnew Hfresh]. unfold wellFormed, handleFileChange; simpl.
    rewrite map_app, map_map. simpl. repeat split.
    + apply NoDup_app; repeat split; auto.
      * intros i Hi Hi'. apply in_map_iff in Hi' as (rf & <- & Hrf).
        exact (Hfresh rf Hrf Hi).
    + apply Forall_app. split; [exact Hinv|]. apply Forall_forall.
      intros f Hf. apply in_map_iff in Hf as (rf & <- & _). apply jobFields_newFile.
    + apply Forall_app. split; [exact Hlog|]. apply Forall_forall.
      intros f Hf. apply in_map_iff in Hf as (rf & <- & _). intros Hs. discriminate.
  - unfold wellFormed, removeFile; simpl. repeat split.
    + apply NoDup_map_filter, Hnd.
    + apply Forall_forall. intros f Hf. apply filter_In in Hf as [Hf _].
      rewrite Forall_forall in Hinv. auto.
    + apply Forall_forall. intros f Hf. apply filter_In in Hf as [Hf _].
      rewrite Forall_forall in Hlog. auto.
Qed.

Lemma in_mapJob_cases (target : string) (patch : AudioFile -> AudioFile)
  (prev : list AudioFile) (f : AudioFile) :
  In f (mapJob target patch prev) ->
  (exists f0, In f0 prev /\ id f0 = target /\ f = patch f0) \/
  (In f prev /\ id f <> target).
Proof.
  intros H. apply in_mapJob in H as (f0 & Hin & ->).
  destruct (String.eqb (id f0) target) eqn:E.
  - apply String.eqb_eq in E. left. eauto.
  - apply String.eqb_neq in E. right. auto.
Qed.

Lemma in_act (w : World) (a : action) (f : AudioFile) :
  In f (files (act w a)) -> In f (files w) \/ exists rf, f = newFile rf.
Proof.
  destruct a as [picked|target]; simpl.
  - unfold handleFileChange. rewrite in_app_iff, in_map_iff.
    intros [H|(rf & <- & _)]; eauto.
  - unfold removeFile. rewrite filter_In. tauto.
Qed.

Lemma wellFormed_mapJob (w : World) (target : string) (patch : AudioFile -> AudioFile) :
  wellFormed w ->
  (forall f, id (patch f) = id f) ->
  (forall f, In f (files w) -> id f = target ->
     jobFields (patch f) /\ fromInference (log w) (patch f)) ->
  wellFormed (withFiles (mapJob target patch (files w)) w).
Proof.
  intros (Hnd & Hinv & Hlog) Hid Hpatch. unfold wellFormed; simpl.
  rewrite Forall_forall in Hinv, Hlog. repeat split.
  - rewrite map_id_mapJob; assumption.
  - apply Forall_forall. intros f Hf.
    apply in_mapJob_cases in Hf as [(f0 & Hin & Ht & ->)|[Hin _]]; auto.
    apply Hpatch; assumption.
  - apply Forall_forall. intros f Hf.
    apply in_mapJob_cases in Hf as [(f0 & Hin & Ht & ->)|[Hin _]]; auto.
    apply Hpatch; assumption.
Qed.

Lemma wf_start_job (x : AudioFile) (rest : list AudioFile) (w : World) :
  wfTop (x :: rest) w ->
  wfMid x rest (withFiles (mapJob (id x) toProcessing (files w)) w).
Proof.
  intros ([Hrun Hwf] & Hnd & Hpend).
  split; [split|split; [|split]]; auto.
  - apply wellFormed_mapJob; auto. intros f Hf Hid. split.
    + destruct Hwf as (_ & Hinv & _). rewrite Forall_forall in Hinv.
      apply jobFields_toProcessing; auto.
      assert (Hp : isPending f = true) by (apply Hpend; simpl; auto).
      apply isPending_status in Hp. intros Hc. destruct Hp; congruence.
    + intros Hs. discriminate.
  - intros f Hf Hid. simpl in Hf.
    apply in_mapJob_cases in Hf as [(f0 & Hin & Ht & ->)|[Hin Hne]];
      [left; reflexivity | contradiction].
  - intros f Hf Hid. simpl in Hf. inversion Hnd as [|? ? Hx _]; subst.
    apply in_mapJob_cases in Hf as [(f0 & Hin & Ht & ->)|[Hin Hne]].
    + simpl in Hid. rewrite Ht in Hid. contradiction.
    + apply Hpend; simpl; auto.
Qed.

Lemma wf_mid_act (x : AudioFile) (rest : list AudioFile) (w : World) (a : action) :
  wfMid x rest w -> freshPick w a -> wfMid x rest (act w a).
Proof.
  intros ([Hrun Hwf] & Hnd & Hx & Hpend) Ha.
  split; [split|split; [|split]]; auto.
  - unfold running. destruct a; exact Hrun.
  - apply wellFormed_act; assumption.
  - intros f Hf Hid. apply in_act in Hf as [Hf|[rf ->]]; auto.
  - intros f Hf Hid. apply in_act in Hf as [Hf|[rf ->]]; auto.
Qed.

Lemma wf_mid_record (x : AudioFile) (rest : list AudioFile) (w : World) (e : event) :
  wfMid x rest w -> wfMid x rest (record e w).
Proof.
  intros ([Hrun Hwf] & Hnd & Hx & Hpend).
  split; [split|split; [|split]]; auto.
  apply wellFormed_record, Hwf.
Qed.

Lemma wf_complete_job (x : AudioFile) (rest : list AudioFile) (w : World)
  (b : string) (result : AnalysisResult.t) :
  wfMid x rest w ->
  let w' := record (Inferred b (fileType (file x)) (Fulfilled result)) w in
  wfTop rest (withFiles (mapJob (id x) (toCompleted result) (files w')) w').
Proof.
  intros ([Hrun Hwf] & Hnd & Hx & Hpend) w'.
  inversion Hnd as [|? ? Hxrest Hndrest]; subst.
  split; [split|split]; auto.
  - apply wellFormed_mapJob; [apply wellFormed_record, Hwf | reflexivity |].
    intros f Hf Hid. split.
    + destruct Hwf as (_ & Hinv & _). rewrite Forall_forall in Hinv.
      apply jobFields_toCompleted; auto.
      intros Hc. destruct (Hx f Hf Hid); congruence.
    + intros _. exists b, (fileType (file x)), result. split.
      * simpl. apply in_or_app. right. left. reflexivity.
      * unfold resultOf. simpl. auto.
  - intros f Hf Hid. simpl in Hf.
    apply in_mapJob_cases in Hf as [(f0 & Hin & Ht & ->)|[Hin Hne]].
    + simpl in Hid. rewrite Ht in Hid. contradiction.
    + apply Hpend; assumption.
Qed.

Lemma wf_fail_job (x : AudioFile) (rest : list AudioFile) (w : World) (e : JsError) :
  wfMid x rest w ->
  wfTop rest (withFiles (mapJob (id x) (toFailed (errorLabel e)) (files w)) w).
Proof.
  intros ([Hrun Hwf] & Hnd & Hx & Hpend).
  inversion Hnd as [|? ? Hxrest Hndrest]; subst.
  split; [split|split]; auto.
  - apply wellFormed_mapJob; [exact Hwf | reflexivity |].
    intros f Hf Hid. split.
    + destruct Hwf as (_ & Hinv & _). rewrite Forall_forall in Hinv.
      apply jobFields_toFailed; auto.
      intros Hc. destruct (Hx f Hf Hid); congruence.
    + intros Hs. discriminate.
  - intros f Hf Hid. simpl in Hf.
    apply in_mapJob_cases in Hf as [(f0 & Hin & Ht & ->)|[Hin Hne]].
    + simpl in Hid. rewrite Ht in Hid. contradiction.
    + apply Hpend; assumption.
Qed.

Lemma wf_top_act (rest : list AudioFile) (w : World) (a : action) :
  wfTop rest w -> freshPick w a -> wfTop rest (act w a).
Proof.
  intros ([Hrun Hwf] & Hnd & Hpend) Ha.
  split; [split|split]; auto.
  - unfold running. destruct a; exact Hrun.
  - apply wellFormed_act; assumption.
  - intros f Hf Hid. apply in_act in Hf as [Hf|[rf ->]]; auto.
Qed.

Lemma wf_top_record (rest : list AudioFile) (w : World) (e : event) :
  wfTop rest w -> wfTop rest (record e w).
Proof.
  intros ([Hrun Hwf] & Hnd & Hpend).
  split; [split|split]; auto.
  apply wellFormed_record, Hwf.
Qed.

Lemma processBatch_wellFormed (w : World) :
  wellFormedIdle w ->
  wp freshPick wellFormedRunning processBatch (fun _ w' => wellFormedIdle w') w.
Proof.
  intros [Hidle Hwf].
  eapply wp_mono;
    [| apply (protocol_processBatch freshPick wellFormedRunning wfTop wfMid);
       auto using wf_start_job, wf_mid_act, wf_mid_record, wf_complete_job,
                  wf_fail_job, wf_top_act, wf_top_record].
  - intros u w' (w1 & ([Hrun Hwf1] & _) & ->). split; [reflexivity | exact Hwf1].
  - intros x rest w0 H. apply H.
  - intros rest w0 H. apply H.
  - destruct Hwf as (Hnd & Hinv & Hlog).
    split; [split; [reflexivity | repeat split; assumption] | split].
    + simpl. apply NoDup_map_filter, Hnd.
    + simpl. intros f Hf Hid. apply in_map_iff in Hid as (f' & Hid & Hf').
      apply filter_In in Hf' as [Hf' Hp].
      rewrite (NoDup_map_inj id (files w) f f' Hnd Hf Hf' (eq_sym Hid)). exact Hp.
Qed.

(** *** The frame of a run *)

Lemma envKeeps_keeps (avoid keep : list string) (env : Env) :
  picksAvoid avoid env -> neverRemoves keep env ->
  envKeeps (fun _ => keeps avoid keep) env.
Proof.
  intros Hp Hr n w.
  assert (H : forall a, In a (meanwhile env n) -> keeps avoid keep a).
  { intros [picked|target] Ha; simpl; eauto. }
  revert w H. generalize (meanwhile env n).
  induction l as [|a l IH]; intros w H; simpl; [exact I|].
  split; [apply H; left; reflexivity | apply IH; intros; apply H; right; assumption].
Qed.

Section Frame.

Variables selected avoid keep : list string.
Variable origin : list AudioFile.

Local Abbreviation Top := (frameTop selected avoid keep origin).

Lemma frame_act (rest : list AudioFile) (w : World) (a : action) :
  Top rest w -> keeps avoid keep a -> Top rest (act w a).
Proof.
  intros (Hincl & Hterm & Hun & Hkeep) Ha. split; [exact Hincl|]. split; [|split].
  - intros f Hf Hav Hsel. destruct a as [picked|target]; simpl in Hf.
    + unfold handleFileChange in Hf. apply in_app_iff in Hf as [Hf|Hf]; auto.
      apply in_map_iff in Hf as (rf & <- & Hrf). exfalso. exact (Ha rf Hrf Hav).
    + apply filter_In in Hf as [Hf _]. auto.
  - intros f Hf Hsel. apply in_act in Hf as [Hf|[rf ->]]; [auto | right; eauto].
  - intros f Hf Hk Hsel. specialize (Hkeep f Hf Hk Hsel).
    destruct a as [picked|target]; simpl.
    + unfold handleFileChange. apply in_or_app. left. exact Hkeep.
    + apply filter_In. split; [exact Hkeep|].
      destruct (String.eqb (id f) target) eqn:E; [|reflexivity].
      apply String.eqb_eq in E. subst target. contradiction.
Qed.

Lemma frame_record (rest : list AudioFile) (w : World) (e : event) :
  Top rest w -> Top rest (record e w).
Proof. intros H. exact H. Qed.

(** A write to the jobs of [x], selected, that leaves them terminal or
    leaves [x] among the jobs still to do. *)
Lemma frame_write (x : AudioFile) (rest rest' : list AudioFile) (w : World)
  (patch : AudioFile -> AudioFile) :
  (forall f, id (patch f) = id f) ->
  (forall f, In (id x) (map id rest') \/ terminal (patch f)) ->
  incl (map id rest') (map id (x :: rest)) ->
  (forall i, In i (map id (x :: rest)) -> i <> id x -> In i (map id rest')) ->
  Top (x :: rest) w ->
  Top rest' (withFiles (mapJob (id x) patch (files w)) w).
Proof.
  intros Hid Hdone Hsub Hrest (Hincl & Hterm & Hun & Hkeep).
  assert (Hx : In (id x) selected) by (apply Hincl; left; reflexivity).
  split; [|split; [|split]].
  - intros i Hi. apply Hincl, Hsub, Hi.
  - intros f Hf Hav Hsel. simpl in Hf.
    apply in_mapJob_cases in Hf as [(f0 & Hin & Ht & ->)|[Hin Hne]].
    + rewrite Hid, Ht. apply Hdone.
    + destruct (Hterm f Hin Hav Hsel) as [Hr|Hr]; [left; apply Hrest; assumption | right; exact Hr].
  - intros f Hf Hsel. simpl in Hf.
    apply in_mapJob_cases in Hf as [(f0 & Hin & Ht & ->)|[Hin Hne]]; auto.
    rewrite Hid, Ht in Hsel. contradiction.
  - intros f Hf Hk Hsel. simpl. apply in_mapJob. exists f. split; [auto|].
    destruct (String.eqb (id f) (id x)) eqn:E; [|reflexivity].
    apply String.eqb_eq in E. rewrite E in Hsel. contradiction.
Qed.

Lemma processBatch_frame (w : World) :
  isProcessing w = false ->
  Top (filter isPending (files w)) (withIsProcessing true w) ->
  wp (fun _ => keeps avoid keep) noInv processBatch
     (fun _ w' => exists w1, Top [] w1 /\ w' = withIsProcessing false w1) w.
Proof.
  intros Hidle Htop.
  apply (protocol_processBatch (fun _ => keeps avoid keep) noInv
           Top (fun x rest => Top (x :: rest))); auto.
  - intros x rest w0 H. apply (frame_write x rest (x :: rest)); auto.
    + intros f. left. left. reflexivity.
    + apply incl_refl.
  - intros x rest w0. exact (fun _ => I).
  - intros x rest w0 a. apply frame_act.
  - intros x rest w0 b result H. apply (frame_write x rest rest); auto.
    + intros f. right. left. reflexivity.
    + apply incl_tl, incl_refl.
    + intros i [Hi|Hi] Hne; [congruence | exact Hi].
  - intros x rest w0 e H. apply (frame_write x rest rest); auto.
    + intros f. right. right. reflexivity.
    + apply incl_tl, incl_refl.
    + intros i [Hi|Hi] Hne; [congruence | exact Hi].
  - intros rest w0. exact (fun _ => I).
  - intros rest w0 a. apply frame_act.
Qed.

End Frame.

(** ** The claims *)

(** C1. For every job that a run processes, the encode-and-infer step is
    attempted at most 3 times; an attempt is followed by another only when
    it failed with a message containing one of the two rate-limit marks, and
    then, for the k-th attempt (k = 1, 2), after a wait of exactly k * 5000
    ms; a failure without such a mark, or a failure of the third attempt,
    ends the loop at once and leaves the job Failed. *)
Theorem retry_policy (audioFile : AudioFile) (env : Env) (n : nat) (w : World) :
  let w' := worldAfter (whileLoop (S maxRetries) audioFile 0) env n w in
  exists retried last,
    log w' = log w ++ retryRounds audioFile 1 retried ++ attemptLog audioFile last /\
    length retried + 1 <= 3 /\
    Forall rateLimited retried /\
    match caught last with
    | None =>
        forall f, In f (files w') -> id f = id audioFile -> status f = COMPLETED
    | Some e =>
        (~ rateLimitMarked e \/ length retried = 2) /\
        forall f, In f (files w') -> id f = id audioFile -> status f = FAILED
    end.
Proof.
  intros w'.
  assert (Hwp : wp anyAction noInv (whileLoop (S maxRetries) audioFile 0)
                   (fun _ w' => loopPost audioFile 0 w w') w)
    by (apply whileLoop_trace; unfold maxRetries; lia).
  apply (wp_run _ _ _ _ env (envKeeps_any env) n) in Hwp.
  destruct Hwp as (retried & last & Hlog & Hlen & Hall & Hlast).
  exists retried, last. fold w' in Hlog, Hlast. repeat split; auto.
  - unfold maxRetries in Hlen. simpl in Hlen. lia.
  - destruct (caught last) as [e|]; [|exact Hlast].
    destruct Hlast as [Hwhy Hst]. split.
    + destruct Hwhy as [Hwhy|Hwhy]; [left | right; exact Hwhy].
      intros Hm. apply isRateLimit_Contains in Hm. congruence.
    + intros f Hf Hid. apply Hst; assumption.
Qed.

Lemma in_retryRounds (audioFile : AudioFile) (ms : Z) :
  forall retried first,
    In (Slept ms) (retryRounds audioFile first retried) ->
    exists k, first <= k /\ ms = (Z.of_nat k * 5000)%Z.
Proof.
  induction retried as [|a retried IH]; intros first H; simpl in H; [contradiction|].
  apply in_app_iff in H as [H|[H|H]].
  - destruct a; simpl in H; intuition discriminate.
  - inversion H; subst. exists first. split; [lia | reflexivity].
  - apply IH in H as (k & Hk & ->). exists k. split; [lia | reflexivity].
Qed.

Lemma jobSegment_no_pause (audioFile : AudioFile) (seg : list event) :
  jobSegment audioFile seg -> ~ In (Slept 1500) seg.
Proof.
  intros (retried & last & -> & _) H. apply in_app_iff in H as [H|H].
  - apply in_retryRounds in H as (k & Hk & H). lia.
  - destruct last; simpl in H; intuition discriminate.
Qed.

Lemma run_trace (env : Env) (w : World) :
  isProcessing w = false ->
  exists segs,
    Forall2 jobSegment (filter isPending (files w)) segs /\
    log (finalWorld processBatch env w) = log w ++ paced segs.
Proof.
  intros Hidle.
  exact (wp_run _ _ _ _ env (envKeeps_any env) 0 w (processBatch_trace w Hidle)).
Qed.

(** C9. In a run, the awaits of each selected job are followed by a pause
    of exactly 1500 ms before those of the next selected job, whether the
    job ended Completed or Failed, and nothing follows those of the last:
    the log of the run is the jobs' segments, in the order of the working
    set, with one such pause between two consecutive segments and none
    inside a segment. *)
Theorem inter_job_delay (env : Env) (w : World) :
  isProcessing w = false ->
  exists segs,
    Forall2 jobSegment (filter isPending (files w)) segs /\
    Forall (fun seg => ~ In (Slept 1500) seg) segs /\
    log (finalWorld processBatch env w) = log w ++ paced segs.
Proof.
  intros Hidle. destruct (run_trace env w Hidle) as (segs & Hsegs & Hlog).
  exists segs. repeat split; auto.
  clear Hlog. induction Hsegs as [|x seg rest segs Hseg _ IH]; constructor; auto.
  apply (jobSegment_no_pause x), Hseg.
Qed.

Lemma run_frameTop (selected avoid keep : list string) (env : Env) (w : World) :
  isProcessing w = false ->
  selected = map id (filter isPending (files w)) ->
  picksAvoid avoid env -> neverRemoves keep env ->
  isProcessing (finalWorld processBatch env w) = false /\
  frameTop selected avoid keep (files w) [] (finalWorld processBatch env w).
Proof.
  intros Hidle -> Hp Hr.
  assert (Hwp := processBatch_frame (map id (filter isPending (files w)))
                   avoid keep (files w) w Hidle).
  apply (wp_run _ _ _ _ env (envKeeps_keeps _ _ env Hp Hr) 0) in Hwp.
  - destruct Hwp as (w1 & Htop & Hw). unfold finalWorld, worldAfter.
    rewrite Hw. split; [reflexivity | exact Htop].
  - split; [apply incl_refl|]. split; [|split]; simpl.
    + intros f Hf _ Hsel. left. exact Hsel.
    + intros f Hf _. left. exact Hf.
    + intros f Hf _ _. exact Hf.
Qed.

(** *** What a run writes *)

Lemma written_mono (base lg more : list event) (f0 f : AudioFile) :
  written base lg f0 f -> written base (lg ++ more) f0 f.
Proof.
  intros [(b & result & (pre & post & Hl) & Hf)|H]; [left | right; exact H].
  exists b, result. split; [|exact Hf].
  exists pre, (post ++ more). rewrite Hl, <- !app_assoc. reflexivity.
Qed.

Lemma in_ids_removeFile (target i : string) (prev : list AudioFile) :
  In i (map id prev) -> i <> target -> In i (map id (removeFile target prev)).
Proof.
  rewrite !in_map_iff. intros (f & Hid & Hf) Hne. exists f. split; [exact Hid|].
  apply filter_In. split; [exact Hf|]. subst i.
  destruct (String.eqb (id f) target) eqn:E; [|reflexivity].
  apply String.eqb_eq in E. contradiction.
Qed.

Lemma NoDup_ids_not_in (x : AudioFile) (rest : list AudioFile) (f : AudioFile) :
  NoDup (map id (x :: rest)) -> In f rest -> id f <> id x.
Proof.
  intros H Hf Hid. inversion H as [|? ? Hx _]; subst.
  apply Hx. rewrite <- Hid. apply in_map, Hf.
Qed.

Section Written.

Variable base : list event.
Variable pending : list AudioFile.
Variables avoid keep : list string.
Hypothesis pending_distinct : NoDup (map id pending).

Local Abbreviation WTop := (writtenTop base pending avoid keep).
Local Abbreviation WMid := (writtenMid base pending avoid keep).

Lemma written_act_in (w : World) (a : action) (f0 f : AudioFile) :
  keeps avoid keep a -> In (id f0) avoid ->
  In f (files (act w a)) -> id f = id f0 -> In f (files w).
Proof.
  intros Ha Hav Hf Hid. destruct a as [picked|target]; simpl in Hf.
  - unfold handleFileChange in Hf. apply in_app_iff in Hf as [Hf|Hf]; [exact Hf|].
    apply in_map_iff in Hf as (rf & <- & Hrf). exfalso.
    apply (Ha rf Hrf). simpl in Hid. rewrite Hid. exact Hav.
  - apply filter_In in Hf as [Hf _]. exact Hf.
Qed.

Lemma written_act_ids (w : World) (a : action) (i : string) :
  keeps avoid keep a -> In i keep ->
  In i (map id (files w)) -> In i (map id (files (act w a))).
Proof.
  intros Ha Hk Hi. destruct a as [picked|target]; simpl.
  - unfold handleFileChange. rewrite map_app. apply in_or_app. left. exact Hi.
  - apply in_ids_removeFile; [exact Hi|]. intros ->. exact (Ha Hk).
Qed.

Lemma log_act (w : World) (a : action) : log (act w a) = log w.
Proof. destruct a; reflexivity. Qed.

Lemma written_top_act (rest : list AudioFile) (w : World) (a : action) :
  WTop rest w -> keeps avoid keep a -> WTop rest (act w a).
Proof.
  intros (Hincl & Hnd & Hlog & Hpres & Hmain) Ha.
  split; [exact Hincl|]. split; [exact Hnd|]. rewrite log_act.
  split; [exact Hlog|]. split.
  - intros f0 Hf0 Hk. apply written_act_ids; auto.
  - intros f0 f Hf0 Hav Hf Hid. apply (Hmain f0 f); auto.
    apply (written_act_in w a f0); assumption.
Qed.

Lemma written_mid_act (x : AudioFile) (rest : list AudioFile) (w : World) (a : action) :
  WMid x rest w -> keeps avoid keep a -> WMid x rest (act w a).
Proof.
  intros (Hincl & Hnd & Hlog & Hpres & Hmain) Ha.
  split; [exact Hincl|]. split; [exact Hnd|]. rewrite log_act.
  split; [exact Hlog|]. split.
  - intros f0 Hf0 Hk. apply written_act_ids; auto.
  - intros f0 f Hf0 Hav Hf Hid. apply (Hmain f0 f); auto.
    apply (written_act_in w a f0); assumption.
Qed.

Lemma written_top_record (rest : list AudioFile) (w : World) (e : event) :
  WTop rest w -> WTop rest (record e w).
Proof.
  intros (Hincl & Hnd & [d Hlog] & Hpres & Hmain).
  split; [exact Hincl|]. split; [exact Hnd|]. split; [|split; [exact Hpres|]].
  - exists (d ++ [e]). simpl. rewrite Hlog, <- app_assoc. reflexivity.
  - intros f0 f Hf0 Hav Hf Hid.
    destruct (Hmain f0 f Hf0 Hav Hf Hid) as [H|[Hn H]]; [left; exact H | right].
    split; [exact Hn | apply written_mono, H].
Qed.

Lemma written_mid_record (x : AudioFile) (rest : list AudioFile) (w : World) (e : event) :
  WMid x rest w -> WMid x rest (record e w).
Proof.
  intros (Hincl & Hnd & [d Hlog] & Hpres & Hmain).
  split; [exact Hincl|]. split; [exact Hnd|]. split; [|split; [exact Hpres|]].
  - exists (d ++ [e]). simpl. rewrite Hlog, <- app_assoc. reflexivity.
  - intros f0 f Hf0 Hav Hf Hid.
    destruct (Hmain f0 f Hf0 Hav Hf Hid) as [H|[H|[Hn H]]]; auto.
    right. right. split; [exact Hn | apply written_mono, H].
Qed.

Lemma written_start_job (x : AudioFile) (rest : list AudioFile) (w : World) :
  WTop (x :: rest) w ->
  WMid x rest (withFiles (mapJob (id x) toProcessing (files w)) w).
Proof.
  intros (Hincl & Hnd & Hlog & Hpres & Hmain).
  split; [exact Hincl|]. split; [exact Hnd|]. split; [exact Hlog|]. split.
  - intros f0 Hf0 Hk. simpl. rewrite map_id_mapJob; auto.
  - intros f0 f Hf0 Hav Hf Hid. simpl in Hf.
    apply in_mapJob_cases in Hf as [(f1 & Hin & Ht & ->)|[Hin Hne]].
    + simpl in Hid.
      assert (Hx : f0 = x).
      { apply (NoDup_map_inj id pending); auto.
        - apply Hincl. left. reflexivity.
        - congruence. }
      subst f0. left. split; [reflexivity|].
      destruct (Hmain x f1 Hf0 Hav Hin Hid) as [[_ ->]|[Hn _]]; [reflexivity|].
      exfalso. apply Hn. left. reflexivity.
    + destruct (Hmain f0 f Hf0 Hav Hin Hid) as [[[<-|Hr] ->]|H].
      * contradiction.
      * right. left. auto.
      * right. right. exact H.
Qed.

(** The write that ends the processing of [x]. *)
Lemma written_finish (x : AudioFile) (rest : list AudioFile) (w : World)
  (more : list event) (patch : AudioFile -> AudioFile) :
  (forall f, id (patch f) = id f) ->
  written base (log w ++ more) x (patch (toProcessing x)) ->
  WMid x rest w ->
  WTop rest (withFiles (mapJob (id x) patch (files w))
                       {| files := files w; isProcessing := isProcessing w;
                          log := log w ++ more |}).
Proof.
  intros Hpatch Hwritten (Hincl & Hnd & [d Hlog] & Hpres & Hmain).
  assert (Hxrest : ~ In x rest).
  { intros Hx. exact (NoDup_ids_not_in x rest x Hnd Hx eq_refl). }
  split; [intros f Hf; apply Hincl; right; exact Hf|].
  split; [inversion Hnd; assumption|]. split; [|split].
  - exists (d ++ more). simpl. rewrite Hlog, <- app_assoc. reflexivity.
  - intros f0 Hf0 Hk. simpl. rewrite map_id_mapJob; auto.
  - intros f0 f Hf0 Hav Hf Hid. simpl in Hf. simpl.
    apply in_mapJob_cases in Hf as [(f1 & Hin & Ht & ->)|[Hin Hne]].
    + rewrite Hpatch in Hid.
      assert (Hx : f0 = x).
      { apply (NoDup_map_inj id pending); auto.
        - apply Hincl. left. reflexivity.
        - congruence. }
      subst f0. right. split; [exact Hxrest|].
      destruct (Hmain x f1 Hf0 Hav Hin Hid) as [[_ ->]|[[Hr _]|[Hn _]]].
      * exact Hwritten.
      * contradiction.
      * exfalso. apply Hn. left. reflexivity.
    + destruct (Hmain f0 f Hf0 Hav Hin Hid) as [[-> _]|[H|[Hn H]]].
      * contradiction.
      * left. exact H.
      * right. split; [intros Hr; apply Hn; right; exact Hr|].
        apply written_mono, H.
Qed.

Lemma processBatch_written (w : World) :
  isProcessing w = false ->
  WTop (filter isPending (files w)) (withIsProcessing true w) ->
  wp (fun _ => keeps avoid keep) noInv processBatch
     (fun _ w' => exists w1, WTop [] w1 /\ w' = withIsProcessing false w1) w.
Proof.
  intros Hidle Htop.
  apply (protocol_processBatch (fun _ => keeps avoid keep) noInv WTop WMid);
    auto using written_start_job, written_mid_record, written_top_record.
  - intros x rest w0. exact (fun _ => I).
  - intros x rest w0 a. apply written_mid_act.
  - intros x rest w0 b result H.
    apply (written_finish x rest w0
             [Inferred b (fileType (file x)) (Fulfilled result)] (toCompleted result));
      [reflexivity | | exact H].
    left. exists b, result. split; [|reflexivity].
    destruct H as (_ & _ & [d Hlog] & _). exists d, []. rewrite Hlog, <- app_assoc.
    reflexivity.
  - intros x rest w0 e H.
    assert (H' := written_finish x rest w0 [] (toFailed (errorLabel e))
                    (fun _ => eq_refl)).
    rewrite app_nil_r in H'. destruct w0 as [fs flag lg]. apply H'; [|exact H].
    right. exists (errorLabel e). split; [|reflexivity].
    unfold errorLabel. destruct (messageIncludes e "429"); auto.
  - intros rest w0. exact (fun _ => I).
  - intros rest w0 a. apply written_top_act.
Qed.

End Written.

Lemma run_written (avoid keep : list string) (env : Env) (w : World) :
  isProcessing w = false ->
  NoDup (map id (files w)) ->
  picksAvoid avoid env -> neverRemoves keep env ->
  writtenTop (log w) (filter isPending (files w)) avoid keep []
             (finalWorld processBatch env w).
Proof.
  intros Hidle Hnd Hp Hr.
  assert (Hpend : NoDup (map id (filter isPending (files w))))
    by (apply NoDup_map_filter, Hnd).
  assert (Hwp := processBatch_written (log w) (filter isPending (files w))
                   avoid keep Hpend w Hidle).
  apply (wp_run _ _ _ _ env (envKeeps_keeps _ _ env Hp Hr) 0) in Hwp.
  - destruct Hwp as (w1 & Htop & Hw). unfold finalWorld, worldAfter.
    rewrite Hw. exact Htop.
  - split; [apply incl_refl|]. split; [exact Hpend|].
    split; [exists []; simpl; rewrite app_nil_r; reflexivity|]. split; simpl.
    + intros f0 Hf0 _. apply in_map. apply filter_In in Hf0 as [Hf0 _]. exact Hf0.
    + intros f0 f Hf0 _ Hf Hid. left. split; [exact Hf0|].
      apply filter_In in Hf0 as [Hf0 _].
      exact (NoDup_map_inj id (files w) f f0 Hnd Hf Hf0 Hid).
Qed.

(** C2. A run writes exactly the jobs that are Idle or Failed when it
    starts, in queue order, and leaves every other job as it is.  The log
    of the run is made of one segment of awaits per job of the working set,
    in order.  Every job of the working set stays in the queue unless the
    user removes its row, and the job found under its identifier when the
    run returns is what the run wrote of it: the job Completed with a
    result that one of the run's inferences on its file yielded, or the job
    Failed under one of the two labels (no file being added under that
    identifier meanwhile).  A job that was not pending at the start (so
    every Completed job) is in the final queue unchanged, unless the user
    removed its row; and every job of the final queue outside the working
    set, such as one added while the run was in progress, is as it was at
    the start or as [handleFileChange] created it. *)
Theorem run_frame (env : Env) (w : World) :
  isProcessing w = false ->
  NoDup (map id (files w)) ->
  let pendingFiles := filter isPending (files w) in
  let w' := finalWorld processBatch env w in
  (exists segs, Forall2 jobSegment pendingFiles segs /\ log w' = log w ++ paced segs) /\
  (forall f0, In f0 pendingFiles ->
     (neverRemoves [id f0] env -> In (id f0) (map id (files w'))) /\
     (picksAvoid [id f0] env ->
      forall f, In f (files w') -> id f = id f0 -> written (log w) (log w') f0 f)) /\
  (forall f, In f (files w) -> isPending f = false ->
     neverRemoves [id f] env -> In f (files w')) /\
  (forall f, In f (files w') -> ~ In (id f) (map id pendingFiles) ->
     untouched (files w) f).
Proof.
  intros Hidle Hnd pendingFiles w'. split; [apply run_trace, Hidle|]. split; [|split].
  - intros f0 Hf0. split.
    + intros Hrem.
      destruct (run_written [] [id f0] env w Hidle Hnd) as (_ & _ & _ & Hpres & _); auto.
      { intros n picked rf _ _ []. }
      apply Hpres; [exact Hf0 | left; reflexivity].
    + intros Havoid f Hf Hid.
      destruct (run_written [id f0] [] env w Hidle Hnd) as (_ & _ & _ & _ & Hmain); auto.
      { intros n target _ []. }
      destruct (Hmain f0 f Hf0 (or_introl eq_refl) Hf Hid) as [[[] _]|[_ H]].
      exact H.
  - intros f Hf Hnp Hrem.
    destruct (run_frameTop (map id pendingFiles) [] [id f] env w Hidle eq_refl)
      as (_ & _ & _ & _ & Hkeep); auto.
    { intros n picked rf _ _ []. }
    apply Hkeep; [exact Hf | left; reflexivity |].
    intros Hsel. apply in_map_iff in Hsel as (f' & Hid & Hf').
    apply filter_In in Hf' as [Hf' Hp].
    rewrite <- (NoDup_map_inj id (files w) f' f Hnd Hf' Hf Hid) in Hnp. congruence.
  - intros f Hf Hsel.
    destruct (run_frameTop (map id pendingFiles) [] [] env w Hidle eq_refl)
      as (_ & _ & _ & Hun & _); auto.
    + intros n picked rf _ _ [].
    + intros n target _ [].
Qed.

(** C4. When a run returns, [isProcessing] is false again and every job of
    the queue that bears the identifier of a selected job is Completed or
    Failed, whatever the awaits of the run yielded (a rejection is a value
    like another: every selected job gets its segment of attempts),
    provided that no file was added meanwhile under the identifier of a
    selected job. *)
Theorem run_postcondition (env : Env) (w : World) :
  isProcessing w = false ->
  let pendingFiles := filter isPending (files w) in
  picksAvoid (map id pendingFiles) env ->
  let w' := finalWorld processBatch env w in
  isProcessing w' = false /\
  (forall f, In f (files w') -> In (id f) (map id pendingFiles) -> terminal f) /\
  (exists segs, Forall2 jobSegment pendingFiles segs /\ log w' = log w ++ paced segs).
Proof.
  intros Hidle pendingFiles Hp w'.
  destruct (run_frameTop (map id pendingFiles) (map id pendingFiles) [] env w
              Hidle eq_refl Hp) as (Hflag & _ & Hterm & _).
  { intros n target _ []. }
  split; [exact Hflag|]. split; [|apply run_trace, Hidle].
  intros f Hf Hsel. destruct (Hterm f Hf Hsel Hsel) as [[]|H]. exact H.
Qed.

Lemma wellFormed_reachable (ls : list label) :
  validFrom freshPick mounted ls -> wellFormed (world (steps mounted ls)).
Proof.
  intros Hv.
  assert (H : LoopInv freshPick wellFormedRunning wellFormedIdle (steps mounted ls)).
  { apply LoopInv_steps; auto.
    - intros w [H _]. exact H.
    - exact processBatch_wellFormed.
    - intros w a [Hn Hwf] Ha. split; [|apply wellFormed_act; assumption].
      unfold notRunning. destruct a; exact Hn.
    - intros w confirmed [Hn (Hnd & Hinv & Hlog)]. split; [exact Hn|].
      destruct confirmed; simpl; repeat split; auto; constructor.
    - intros w [H _]. exact H.
    - intros w a [Hn Hwf] Ha. split; [|apply wellFormed_act; assumption].
      unfold running. destruct a; exact Hn.
    - left. split; [reflexivity|]. split; [reflexivity|].
      repeat split; constructor. }
  apply LoopInv_now in H.
  - destruct H as [[_ H]|[_ H]]; exact H.
  - intros w a [Hn Hwf] Ha. split; [|apply wellFormed_act; assumption].
    unfold running. destruct a; exact Hn.
Qed.

(** C5, as amended. Enqueueing, every status transition of a run, and
    removal preserve this much of the invariant of a job: in every state
    that the component reaches from its mounting, the error field of a job
    is present exactly when the job is Failed; a job that is not Completed
    has none of the four result fields; and the result fields of a
    Completed job are those of a result that an inference yielded, each
    present exactly when that result has it.  So the invariant as specified
    holds of every job whenever every result that the inferences yielded
    has its four fields.  (The identifiers drawn for new files are distinct
    from one another and from those in the queue.) *)
Theorem queue_invariant (ls : list label) :
  validFrom freshPick mounted ls ->
  let w := world (steps mounted ls) in
  Forall (fun f =>
            (error f <> None <-> status f = FAILED) /\
            (status f <> COMPLETED -> noResult f) /\
            (status f = COMPLETED ->
             exists b m result,
               In (Inferred b m (Fulfilled result)) (log w) /\ resultOf f result) /\
            ((forall b m result,
                In (Inferred b m (Fulfilled result)) (log w) -> hasAllFields result) ->
             jobInvariant f))
         (files w).
Proof.
  intros Hv w. destruct (wellFormed_reachable ls Hv) as (_ & Hinv & Hlog).
  fold w in Hinv, Hlog. rewrite Forall_forall in Hinv, Hlog.
  apply Forall_forall. intros f Hf.
  destruct (Hinv f Hf) as [Hnone Herr]. specialize (Hlog f Hf).
  split; [exact Herr|]. split; [exact Hnone|]. split; [exact Hlog|].
  intros Hall. unfold jobInvariant.
  destruct (status f) eqn:Hs;
    try (assert (Hn : noResult f) by (apply Hnone; discriminate);
         destruct Hn as (H1 & H2 & H3 & H4); rewrite H1, H2, H3, H4;
         repeat (split; [split; intros H; [contradiction | discriminate]|]);
         exact Herr).
  destruct (Hlog Hs) as (b & m & result & Hin & H1 & H2 & H3 & H4).
  destruct (Hall b m result Hin) as (A1 & A2 & A3 & A4).
  rewrite H1, H2, H3, H4.
  repeat (split; [split; intros; [reflexivity | assumption]|]).
  exact Herr.
Qed.

(** C7, as amended. In every state that the component reaches, the four
    result fields of a Completed job are those of a result that an
    inference yielded: each is present exactly when that result has it,
    and the intensity is the result's.  So a Completed job has its four
    fields, with an intensity within 1 to 10, whenever every result that
    the inferences yielded has its four fields and an intensity there; the
    code itself checks neither. *)
Theorem completed_fields (ls : list label) :
  validFrom freshPick mounted ls ->
  let w := world (steps mounted ls) in
  forall f, In f (files w) -> status f = COMPLETED ->
    (exists b m result, In (Inferred b m (Fulfilled result)) (log w) /\ resultOf f result) /\
    ((forall b m result, In (Inferred b m (Fulfilled result)) (log w) ->
        hasAllFields result /\ levelInRange result) ->
     emotionType f <> None /\ voiceIdentity f <> None /\ reasoning f <> None /\
     exists level, emotionLevel f = Some level /\ (1 <= level <= 10)%Z).
Proof.
  intros Hv w f Hf Hs. destruct (wellFormed_reachable ls Hv) as (_ & _ & Hlog).
  fold w in Hlog. rewrite Forall_forall in Hlog.
  destruct (Hlog f Hf Hs) as (b & m & result & Hin & Hr). split; [eauto|].
  intros Hok. destruct (Hok b m result Hin) as [(A1 & _ & A3 & A4) (level & Hl & Hrange)].
  destruct Hr as (H1 & H2 & H3 & H4). rewrite H1, H2, H3, H4.
  repeat (split; [assumption|]). exists level. split; assumption.
Qed.

(** C8, as amended. When the encoding of a job is rejected, on whichever
    attempt, with a value that bears no rate-limit mark (no message, or a
    message containing neither 429 nor RESOURCE_EXHAUSTED), the retry loop
    ends with that await and the job is Failed under the generic label. *)
Theorem encode_failure_generic (audioFile : AudioFile) (env : Env)
  (fuel retryCount n : nat) (w : World) (e : JsError) :
  retryCount <= maxRetries -> 0 < fuel ->
  answer env n _ (fileToBase64 (file audioFile)) = Rejected e ->
  ~ rateLimitMarked e ->
  let w' := worldAfter (whileLoop fuel audioFile retryCount) env n w in
  log w' = log w ++ [Encoded (file audioFile) (Rejected e)] /\
  forall f, In f (files w') -> id f = id audioFile ->
    status f = FAILED /\ error f = Some genericLabel.
Proof.
  intros Hrc Hfuel Hans Hmark w'. subst w'. unfold worldAfter.
  destruct fuel as [|fuel]; [lia|]. cbn [whileLoop].
  apply Nat.leb_le in Hrc. rewrite Hrc. rewrite run_bind.
  unfold tryBlock. rewrite run_bind. simpl. rewrite Hans. simpl.
  assert (Hrl : isRateLimit e = false).
  { destruct (isRateLimit e) eqn:E; [|reflexivity].
    apply isRateLimit_Contains in E. contradiction. }
  rewrite Hrl. simpl. rewrite log_acts. split; [reflexivity|].
  intros f Hf Hid. apply in_mapJob_cases in Hf as [(f0 & Hin & Ht & ->)|[Hin Hne]];
    [|contradiction].
  split; [reflexivity|]. simpl. unfold errorLabel.
  unfold isRateLimit in Hrl. apply orb_false_iff in Hrl as [-> _]. reflexivity.
Qed.

(** Whenever every encoding of a job succeeds and every inference is
    rejected with a message that contains RESOURCE_EXHAUSTED but not 429, the
    job is attempted three times and ends Failed under the generic label. *)
Lemma exhausted_label_general (audioFile : AudioFile) (env : Env) (n : nat) (w : World)
  (b : nat -> string) (e : nat -> JsError) :
  (forall k, answer env k _ (fileToBase64 (file audioFile)) = Fulfilled (b k)) ->
  (forall k base64,
     answer env k _ (analyzeAudioEmotion base64 (fileType (file audioFile))) =
     Rejected (e k)) ->
  (forall k, messageIncludes (e k) "RESOURCE_EXHAUSTED" = true) ->
  (forall k, messageIncludes (e k) "429" = false) ->
  let w' := worldAfter (whileLoop (S maxRetries) audioFile 0) env n w in
  let mime := fileType (file audioFile) in
  log w' = log w ++
    [Encoded (file audioFile) (Fulfilled (b n));
     Inferred (b n) mime (Rejected (e (1 + n))); Slept 5000;
     Encoded (file audioFile) (Fulfilled (b (3 + n)));
     Inferred (b (3 + n)) mime (Rejected (e (4 + n))); Slept 10000;
     Encoded (file audioFile) (Fulfilled (b (6 + n)));
     Inferred (b (6 + n)) mime (Rejected (e (7 + n)))] /\
  forall f, In f (files w') -> id f = id audioFile ->
    status f = FAILED /\ error f = Some genericLabel.
Proof.
  intros Henc Hinf Hre H429 w' mime. subst w' mime. unfold worldAfter.
  assert (Hrl : forall k, isRateLimit (e k) = true).
  { intros k. unfold isRateLimit. rewrite Hre. apply orb_true_r. }
  assert (Hlabel : forall k, errorLabel (e k) = genericLabel).
  { intros k. unfold errorLabel. rewrite H429. reflexivity. }
  simpl. rewrite !Henc. simpl. rewrite !Hinf. simpl. rewrite !Hrl. simpl.
  rewrite !Henc. simpl. rewrite !Hinf. simpl. rewrite !Hrl. simpl.
  rewrite !Henc. simpl. rewrite !Hinf. simpl. rewrite !Hrl. simpl.
  rewrite !log_acts. simpl. rewrite !log_acts. simpl. rewrite !log_acts. simpl.
  rewrite !log_acts. simpl. rewrite !log_acts. simpl. rewrite !log_acts. simpl.
  rewrite !log_acts. simpl. rewrite !log_acts. rewrite <- !app_assoc. simpl.
  split; [reflexivity|].
  intros f Hf Hid. apply in_mapJob_cases in Hf as [(f0 & Hin & Ht & ->)|[Hin Hne]];
    [|contradiction].
  simpl. rewrite Hlabel. split; reflexivity.
Qed.

(** C3 (the code departs from it). A job whose every inference is rejected
    with the message RESOURCE_EXHAUSTED is attempted exactly 3 times, with
    waits of 5000 and 10000 ms, and ends Failed; but the label it carries is
    the generic one, not the rate-limit one: the label is chosen by looking
    for 429 alone. *)
Theorem exhausted_label :
  let w' := finalWorld processBatch exhaustedEnv sampleWorld in
  log w' =
    [Encoded sampleFile (Fulfilled "UklGRg==");
     Inferred "UklGRg==" "audio/wav" (Rejected exhausted); Slept 5000;
     Encoded sampleFile (Fulfilled "UklGRg==");
     Inferred "UklGRg==" "audio/wav" (Rejected exhausted); Slept 10000;
     Encoded sampleFile (Fulfilled "UklGRg==");
     Inferred "UklGRg==" "audio/wav" (Rejected exhausted)] /\
  isRateLimit exhausted = true /\
  map status (files w') = [FAILED] /\
  map error (files w') = [Some genericLabel] /\
  genericLabel <> rateLimitLabel.
Proof. repeat split. discriminate. Qed.

(** Two rate-limited inferences, then a result: the job is Completed after
    waits of 5000 and 10000 ms. *)
Example twice_throttled_then_completed :
  let w' := finalWorld processBatch twiceThrottledEnv sampleWorld in
  map status (files w') = [COMPLETED] /\
  map emotionLevel (files w') = [Some 5%Z] /\
  filter (fun e => match e with Slept _ => true | _ => false end) (log w') =
    [Slept 5000; Slept 10000].
Proof. repeat split. Qed.

(** ** Further properties of the handlers *)

Lemma filter_map_swap {T U : Type} (g : T -> U) (p : U -> bool) (l : list T) :
  filter p (map g l) = map g (filter (fun x => p (g x)) l).
Proof.
  induction l as [|x l IH]; simpl; [reflexivity|].
  destruct (p (g x)); simpl; rewrite IH; reflexivity.
Qed.

Lemma filter_all {T : Type} (p : T -> bool) (l : list T) :
  (forall x, In x l -> p x = true) -> filter p l = l.
Proof.
  induction l as [|x l IH]; simpl; intros H; [reflexivity|].
  rewrite (H x (or_introl eq_refl)), IH; auto.
Qed.

(** X1. The files chosen by the user join the working set of the next run,
    behind the jobs that were already pending and in the order chosen. *)
Theorem added_files_are_pending (picked : list (string * File)) (prev : list AudioFile) :
  filter isPending (handleFileChange picked prev) =
  filter isPending prev ++ map newFile picked.
Proof.
  unfold handleFileChange. rewrite filter_app. f_equal.
  apply filter_all. intros f Hf. apply in_map_iff in Hf as (rf & <- & _). reflexivity.
Qed.

Lemma removeFile_absent (target : string) (prev : list AudioFile) :
  ~ In target (map id prev) -> removeFile target prev = prev.
Proof.
  intros H. apply filter_all. intros f Hf.
  destruct (String.eqb (id f) target) eqn:E; [|reflexivity].
  apply String.eqb_eq in E. exfalso. apply H. rewrite <- E. apply in_map, Hf.
Qed.

(** X2. Removing the row of an identifier that the old queue does not hold,
    after files were added, gives back the old queue followed by the added
    files drawn under other identifiers; so adding one file and removing
    its row restores the queue. *)
Theorem add_then_remove (prev : list AudioFile) (picked : list (string * File))
  (target : string) :
  ~ In target (map id prev) ->
  removeFile target (handleFileChange picked prev) =
    prev ++ map newFile (filter (fun rf => negb (String.eqb (fst rf) target)) picked) /\
  forall f, removeFile target (handleFileChange [(target, f)] prev) = prev.
Proof.
  intros H. unfold handleFileChange, removeFile at 1. split.
  - rewrite filter_app. fold (removeFile target prev).
    rewrite (removeFile_absent _ _ H), filter_map_swap. reflexivity.
  - intros f. unfold removeFile. rewrite filter_app. fold (removeFile target prev).
    rewrite (removeFile_absent _ _ H). simpl. rewrite String.eqb_refl. simpl.
    apply app_nil_r.
Qed.

(** X3. [removeFile] drops every job that bears the identifier and no
    other; removals commute, and a removal done twice is a removal done
    once. *)
Theorem removeFile_algebra (a b : string) (prev : list AudioFile) :
  (forall f, In f (removeFile a prev) <-> In f prev /\ id f <> a) /\
  removeFile a (removeFile b prev) = removeFile b (removeFile a prev) /\
  removeFile a (removeFile a prev) = removeFile a prev /\
  ~ In a (map id (removeFile a prev)).
Proof.
  split; [|split; [|split]].
  - intros f. unfold removeFile. rewrite filter_In.
    destruct (String.eqb (id f) a) eqn:E; simpl.
    + apply String.eqb_eq in E. split; [intros [_ H]; discriminate | tauto].
    + apply String.eqb_neq in E. tauto.
  - unfold removeFile. induction prev as [|f prev IH]; simpl; [reflexivity|].
    destruct (String.eqb (id f) a) eqn:Ea, (String.eqb (id f) b) eqn:Eb; simpl;
      rewrite ?Ea, ?Eb; simpl; rewrite IH; reflexivity.
  - unfold removeFile. induction prev as [|f prev IH]; simpl; [reflexivity|].
    destruct (String.eqb (id f) a) eqn:Ea; simpl; rewrite ?Ea; simpl; rewrite IH; reflexivity.
  - intros H. apply in_map_iff in H as (f & Hid & Hf).
    unfold removeFile in Hf. apply filter_In in Hf as [_ Hf].
    rewrite Hid, String.eqb_refl in Hf. discriminate.
Qed.

(** ** Further properties of a run *)

(** X7. With no pending job in the queue (an empty queue, or every job
    Completed), [processBatch] awaits nothing and leaves the whole state as
    it is. *)
Theorem nothing_pending (env : Env) (n : nat) (w : World) :
  isProcessing w = false ->
  filter isPending (files w) = [] ->
  run processBatch env n w = (tt, w, n).
Proof.
  intros Hidle Hp. unfold processBatch. simpl. rewrite Hidle. simpl. rewrite Hp. simpl.
  destruct w as [fs flag lg]. simpl in Hidle. subst flag. reflexivity.
Qed.

(** X8. A job that leaves the retry loop Failed under the rate-limit label
    has been attempted three times, each attempt failing under a rate-limit
    mark, with waits of 5000 and 10000 ms between them. *)
Theorem rate_limit_label_after_three (audioFile : AudioFile) (env : Env) (n : nat)
  (w : World) (f : AudioFile) :
  let w' := worldAfter (whileLoop (S maxRetries) audioFile 0) env n w in
  In f (files w') -> id f = id audioFile ->
  status f = FAILED -> error f = Some rateLimitLabel ->
  exists a1 a2 a3,
    rateLimited a1 /\ rateLimited a2 /\ rateLimited a3 /\
    log w' = log w ++ attemptLog audioFile a1 ++ Slept 5000 ::
                      attemptLog audioFile a2 ++ Slept 10000 ::
                      attemptLog audioFile a3.
Proof.
  intros w' Hf Hid Hst Herr.
  assert (Hwp : wp anyAction noInv (whileLoop (S maxRetries) audioFile 0)
                   (fun _ w' => loopPost audioFile 0 w w') w)
    by (apply whileLoop_trace; unfold maxRetries; lia).
  apply (wp_run _ _ _ _ env (envKeeps_any env) n) in Hwp. fold (worldAfter (whileLoop (S maxRetries) audioFile 0) env n w) in Hwp.
  fold w' in Hwp. destruct Hwp as (retried & last & Hlog & Hlen & Hall & Hlast).
  destruct (caught last) as [e|] eqn:Hc.
  - destruct Hlast as [Hwhy Hfinal]. destruct (Hfinal f Hf Hid) as [_ Hlabel].
    assert (H429 : messageIncludes e "429" = true).
    { rewrite Herr in Hlabel. unfold errorLabel in Hlabel.
      destruct (messageIncludes e "429"); [reflexivity | discriminate Hlabel]. }
    assert (Hrl : isRateLimit e = true) by (unfold isRateLimit; rewrite H429; reflexivity).
    destruct Hwhy as [Hwhy|Hwhy]; [congruence|].
    simpl in Hwhy. destruct retried as [|a1 [|a2 [|a3 retried]]]; try discriminate Hwhy.
    inversion Hall as [|? ? H1 Hall']; subst. inversion Hall' as [|? ? H2 _]; subst.
    exists a1, a2, last. repeat split; auto.
    + exists e. split; [exact Hc | apply isRateLimit_Contains, Hrl].
    + rewrite Hlog. f_equal. simpl. repeat (rewrite <- app_assoc; simpl). reflexivity.
  - specialize (Hlast f Hf Hid). congruence.
Qed.

Lemma count_app (p : event -> bool) (l1 l2 : list event) :
  count p (l1 ++ l2) = count p l1 + count p l2.
Proof. unfold count. rewrite filter_app. apply length_app. Qed.

Lemma timeSlept_app (l1 l2 : list event) :
  timeSlept (l1 ++ l2) = (timeSlept l1 + timeSlept l2)%Z.
Proof.
  induction l1 as [|e l1 IH]; simpl; [reflexivity|].
  destruct e; rewrite IH; lia.
Qed.

Lemma jobSegment_budget (audioFile : AudioFile) (seg : list event) :
  jobSegment audioFile seg ->
  count isInference seg <= 3 /\
  1 <= count isEncoding seg <= 3 /\
  count isPause seg = 0 /\
  (0 <= timeSlept seg <= 15000)%Z /\
  length seg <= 8.
Proof.
  intros (retried & last & -> & Hlen & _ & _). unfold maxRetries in Hlen.
  destruct retried as [|a1 [|a2 [|a3 retried]]]; simpl in Hlen; try lia;
    repeat match goal with a : attempt |- _ => destruct a end;
    vm_compute; repeat split; try lia; try discriminate.
Qed.

Lemma paced_cons (seg seg' : list event) (segs : list (list event)) :
  paced (seg :: seg' :: segs) = seg ++ [Slept 1500] ++ paced (seg' :: segs).
Proof. reflexivity. Qed.

Lemma paced_budget : forall rest segs,
  Forall2 jobSegment rest segs ->
  count isInference (paced segs) <= 3 * length rest /\
  length rest <= count isEncoding (paced segs) <= 3 * length rest /\
  count isPause (paced segs) = length rest - 1 /\
  (1500 * Z.of_nat (length rest - 1) <= timeSlept (paced segs)
   <= 15000 * Z.of_nat (length rest) + 1500 * Z.of_nat (length rest - 1))%Z /\
  length (paced segs) <= 8 * length rest + (length rest - 1).
Proof.
  intros rest segs H. induction H as [|x seg rest segs Hseg Hrest IH].
  - vm_compute. repeat split; try lia; discriminate.
  - apply jobSegment_budget in Hseg as (Hi & He & Hp & Ht & Hl).
    destruct Hrest as [|x' seg' rest' segs' Hseg' Hrest'].
    + simpl. lia.
    + rewrite paced_cons, !count_app, !timeSlept_app, !length_app.
      change (count isInference [Slept 1500]) with 0.
      change (count isEncoding [Slept 1500]) with 0.
      change (count isPause [Slept 1500]) with 1.
      change (timeSlept [Slept 1500]) with 1500%Z.
      cbn [length] in *. lia.
Qed.

(** X9. A run on a working set of k jobs makes at least k and at most 3 k
    encodings, at most 3 k inferences, exactly k - 1 pauses between jobs
    (none for an empty working set), and at most 8 k + (k - 1) awaits in
    all. *)
Theorem call_budget (env : Env) (w : World) :
  isProcessing w = false ->
  let k := length (filter isPending (files w)) in
  let w' := finalWorld processBatch env w in
  count isInference (log w') <= count isInference (log w) + 3 * k /\
  count isEncoding (log w) + k <= count isEncoding (log w') /\
  count isEncoding (log w') <= count isEncoding (log w) + 3 * k /\
  count isPause (log w') = count isPause (log w) + (k - 1) /\
  length (log w') <= length (log w) + 8 * k + (k - 1).
Proof.
  intros Hidle k w'. destruct (run_trace env w Hidle) as (segs & Hsegs & Hlog).
  fold w' in Hlog. rewrite Hlog, !count_app, length_app.
  apply paced_budget in Hsegs. fold k in Hsegs. lia.
Qed.

(** X10. A run on a working set of k jobs sleeps, backoff and pauses
    together, at least 1500 (k - 1) ms and at most 15000 k + 1500 (k - 1)
    ms. *)
Theorem sleep_budget (env : Env) (w : World) :
  isProcessing w = false ->
  let k := length (filter isPending (files w)) in
  let w' := finalWorld processBatch env w in
  (timeSlept (log w) + 1500 * Z.of_nat (k - 1) <= timeSlept (log w'))%Z /\
  (timeSlept (log w') <=
   timeSlept (log w) + 15000 * Z.of_nat k + 1500 * Z.of_nat (k - 1))%Z.
Proof.
  intros Hidle k w'. destruct (run_trace env w Hidle) as (segs & Hsegs & Hlog).
  fold w' in Hlog. rewrite Hlog, !timeSlept_app.
  apply paced_budget in Hsegs. fold k in Hsegs. lia.
Qed.

Lemma okActs_ofEnv (env : Env) (awaits n : nat) (w : World) :
  n < awaits -> okActs (ofEnv env awaits) w (meanwhile env n).
Proof.
  intros Hn.
  assert (H : forall a, In a (meanwhile env n) ->
                        exists m, m < awaits /\ In a (meanwhile env m))
    by eauto.
  revert w H. generalize (meanwhile env n).
  induction l as [|a l IH]; intros w H; simpl; [exact I|].
  split; [apply H; left; reflexivity | apply IH; intros; apply H; right; assumption].
Qed.

Lemma in_act_ofEnv (env : Env) (awaits : nat) (w : World) (a : action) (f : AudioFile) :
  ofEnv env awaits w a -> In f (files (act w a)) ->
  In f (files w) \/ addedBy env awaits f.
Proof.
  intros (n & Hlt & Hn). destruct a as [picked|target]; simpl.
  - unfold handleFileChange. rewrite in_app_iff, in_map_iff.
    intros [H|(rf & <- & Hrf)]; [left; exact H | right].
    exists n, picked, rf. auto.
  - unfold removeFile. rewrite filter_In. tauto.
Qed.

Lemma processBatch_idleIsNew (env : Env) (awaits : nat) (w : World) :
  isProcessing w = false ->
  wp (ofEnv env awaits) noInv processBatch
     (fun _ w' => exists w1, idleIsNew env awaits [] w1 /\ w' = withIsProcessing false w1) w.
Proof.
  intros Hidle.
  assert (Hwrite : forall x rest rest' (patch : AudioFile -> AudioFile) w0,
             (forall f, status (patch f) <> IDLE) ->
             (forall i, In i (map id rest) -> i <> id x -> In i (map id rest')) ->
             idleIsNew env awaits rest w0 ->
             idleIsNew env awaits rest' (withFiles (mapJob (id x) patch (files w0)) w0)).
  { intros x rest rest' patch w0 Hpatch Hsub H f Hf Hst. simpl in Hf.
    apply in_mapJob_cases in Hf as [(f0 & Hin & Ht & ->)|[Hin Hne]].
    - exfalso. exact (Hpatch f0 Hst).
    - destruct (H f Hin Hst) as [Hr|Hr]; [left; apply Hsub; assumption | right; exact Hr]. }
  apply (protocol_processBatch (ofEnv env awaits) noInv (idleIsNew env awaits)
           (fun _ rest => idleIsNew env awaits rest));
    auto.
  - intros x rest w0. apply (Hwrite x); [discriminate|].
    intros i [Hi|Hi] Hne; [congruence | exact Hi].
  - intros x rest w0. exact (fun _ => I).
  - intros x rest w0 a H Ha f Hf Hst.
    apply (in_act_ofEnv env awaits) in Hf as [Hf|Hf]; auto.
  - intros x rest w0 b result H. apply (Hwrite x rest rest); auto. discriminate.
  - intros x rest w0 e H. apply (Hwrite x rest rest); auto. discriminate.
  - intros rest w0. exact (fun _ => I).
  - intros rest w0 a H Ha f Hf Hst.
    apply (in_act_ofEnv env awaits) in Hf as [Hf|Hf]; auto.
  - intros f Hf Hst. left. apply in_map, filter_In. split; [exact Hf|].
    unfold isPending. rewrite Hst. reflexivity.
Qed.

(** X11. When a run returns, every Idle job of the queue is the job made
    for a file that the user chose at one of the awaits that the run made;
    and where no file was added under the identifier of a selected job, no
    Idle job bears the identifier of a selected job.  So no selected job is
    left Idle, and the working set of the next run is made of Failed jobs
    and of files added meanwhile. *)
Theorem idle_after_run (env : Env) (w : World) :
  isProcessing w = false ->
  let pendingFiles := filter isPending (files w) in
  Forall (fun f => status f = IDLE ->
                   addedBy env (awaitsOf processBatch env w) f /\
                   (picksAvoid (map id pendingFiles) env ->
                    ~ In (id f) (map id pendingFiles)))
         (files (finalWorld processBatch env w)).
Proof.
  intros Hidle pendingFiles.
  destruct (wp_run_upto _ _ _ _ env 0 w
              (fun m w0 Hm => okActs_ofEnv env (awaitsOf processBatch env w) m w0 (proj2 Hm))
              (processBatch_idleIsNew env (awaitsOf processBatch env w) w Hidle))
    as (w1 & Hnew & Hw).
  apply Forall_forall. intros f Hf Hst. split.
  - unfold finalWorld, worldAfter in Hf. rewrite Hw in Hf. simpl in Hf.
    destruct (Hnew f Hf Hst) as [[]|Hr]. exact Hr.
  - intros Hp Hsel.
    destruct (run_frameTop (map id pendingFiles) (map id pendingFiles) [] env w
                Hidle eq_refl Hp) as (_ & _ & Hterm & _).
    { intros n target _ []. }
    destruct (Hterm f Hf Hsel Hsel) as [[]|[H|H]]; congruence.
Qed.

(** *** What the handlers never change *)

Lemma keepsKeys_bind {A B : Type} (m : proc A) (f : A -> proc B) :
  keepsKeys m -> (forall a, keepsKeys (f a)) -> keepsKeys (bind m f).
Proof.
  intros Hm Hf. induction m as [a|k IH|b k IH|k IH|upd k IH|X c k IH]; simpl in *; auto.
  destruct Hm as [Hupd Hk]. split; auto.
Qed.

Lemma mapJob_keeps (target : string) (patch : AudioFile -> AudioFile) :
  (forall f, jobKey (patch f) = jobKey f) ->
  forall fs, map jobKey (mapJob target patch fs) = map jobKey fs.
Proof.
  intros Hp fs. unfold mapJob. rewrite map_map. apply map_ext.
  intros f. destruct (String.eqb (id f) target); auto.
Qed.

Lemma keepsKeys_whileLoop (audioFile : AudioFile) :
  forall fuel retryCount, keepsKeys (whileLoop fuel audioFile retryCount).
Proof.
  assert (Hfail : forall e, keepsKeys (markFailed audioFile e)).
  { intros e. split; [apply mapJob_keeps; reflexivity | exact I]. }
  induction fuel as [|fuel IH]; intros rc; cbn [whileLoop]; [exact I|].
  destruct (rc <=? maxRetries)%nat; [|exact I].
  apply keepsKeys_bind.
  - unfold tryBlock. apply keepsKeys_bind; [intros r; exact I|].
    intros [base64|e]; [|exact I]. apply keepsKeys_bind; [intros r; exact I|].
    intros [result|e]; [|exact I].
    apply keepsKeys_bind; [|intros; exact I].
    split; [apply mapJob_keeps; reflexivity | exact I].
  - intros [u|e]; [exact I|]. destruct (isRateLimit e); [|apply Hfail].
    destruct (S rc <=? maxRetries)%nat; [|apply Hfail].
    apply keepsKeys_bind; [intros r; exact I | intros _; apply IH].
Qed.

Lemma keepsKeys_forLoop : forall rest i len, keepsKeys (forLoop rest i len).
Proof.
  induction rest as [|x rest IH]; intros i len; cbn [forLoop]; [exact I|].
  apply keepsKeys_bind; [split; [apply mapJob_keeps; reflexivity | exact I]|].
  intros _. apply keepsKeys_bind; [apply keepsKeys_whileLoop|].
  intros _. apply keepsKeys_bind; [destruct (i <? len - 1)%Z; [intros r|]; exact I|].
  intros _. apply IH.
Qed.

Lemma keepsKeys_processBatch : keepsKeys processBatch.
Proof.
  unfold processBatch. apply keepsKeys_bind; [intros b; exact I|].
  intros [|]; [exact I|]. apply keepsKeys_bind; [exact I|]. intros _.
  apply keepsKeys_bind; [intros fs; exact I|]. intros fs.
  apply keepsKeys_bind; [apply keepsKeys_forLoop | intros _; exact I].
Qed.

Lemma advance_keepsKeys (p : proc unit) :
  keepsKeys p ->
  forall w,
    map jobKey (files (fst (advance p w))) = map jobKey (files w) /\
    match snd (advance p w) with
    | Some (Parked c k) => forall r, keepsKeys (k r)
    | None => True
    end.
Proof.
  induction p as [a|k IH|b k IH|k IH|upd k IH|X c k IH]; simpl; intros Hp w.
  - auto.
  - apply IH, Hp.
  - exact (IH Hp (withIsProcessing b w)).
  - apply IH, Hp.
  - destruct Hp as [Hupd Hk]. destruct (IH Hk (withFiles (upd (files w)) w)) as [H1 H2].
    split; [|exact H2]. rewrite H1. simpl. apply Hupd.
  - auto.
Qed.

Lemma Forall_dropNth {T : Type} (P : T -> Prop) : forall (l : list T) i,
  Forall P l -> Forall P (dropNth i l).
Proof.
  induction l as [|x l IH]; intros i H; [destruct i; exact H|].
  inversion H; subst. destruct i; simpl; auto.
Qed.

Lemma parkedKeepKeys_step (s : Sys) (l : label) :
  parkedKeepKeys s ->
  parkedKeepKeys (step s l) /\
  match l with
  | Click | Settle _ _ =>
      map jobKey (files (world (step s l))) = map jobKey (files (world s))
  | _ => True
  end.
Proof.
  unfold parkedKeepKeys. intros H. destruct l as [|a|confirmed|i ans]; cbn [step].
  - destruct (advance_keepsKeys processBatch keepsKeys_processBatch (world s)) as [H1 H2].
    destruct (advance processBatch (world s)) as [w' r]. simpl in *.
    split; [|exact H1]. destruct r as [q|]; simpl; [|exact H].
    apply Forall_app. split; [exact H|]. constructor; [|constructor].
    destruct q. exact H2.
  - split; [exact H | exact I].
  - split; [|exact I]. destruct (isProcessing (world s)); exact H.
  - destruct (nth_error (inflight s) i) as [[X c k]|] eqn:E; [|split; [exact H | reflexivity]].
    assert (Hk : forall r, keepsKeys (k r)).
    { apply nth_error_In in E. rewrite Forall_forall in H. exact (H _ E). }
    destruct (advance_keepsKeys (k (ans X c)) (Hk _)
                (record (eventOf c (ans X c)) (world s))) as [H1 H2].
    destruct (advance (k (ans X c)) (record (eventOf c (ans X c)) (world s))) as [w' r].
    simpl in *. split; [|exact H1].
    destruct r as [q|]; simpl; [|apply Forall_dropNth, H].
    apply Forall_app. split; [apply Forall_dropNth, H|]. constructor; [|constructor].
    destruct q. exact H2.
Qed.

Lemma parkedKeepKeys_reachable (ls : list label) : parkedKeepKeys (steps mounted ls).
Proof.
  assert (H : forall s, parkedKeepKeys s -> parkedKeepKeys (steps s ls)).
  { induction ls as [|l ls IH]; intros s Hs; [exact Hs|].
    simpl. apply IH. apply parkedKeepKeys_step, Hs. }
  apply H. constructor.
Qed.

(** X12. No step of a run, the click or the resumption after an await,
    adds, removes, reorders or renames a job: in every state that the
    component reaches, such a step leaves the identifier, file, name and
    size of every job of the queue in place.  Only the user changes them. *)
Theorem run_steps_keep_keys (ls : list label) (l : label) :
  let s := steps mounted ls in
  match l with
  | Click | Settle _ _ =>
      map jobKey (files (world (step s l))) = map jobKey (files (world s))
  | _ => True
  end.
Proof.
  intros s. apply parkedKeepKeys_step. apply parkedKeepKeys_reachable.
Qed.

(** *** What a run does not look at *)

Lemma stateBlind_bind {A B : Type} (m : proc A) (f : A -> proc B) :
  stateBlind m -> (forall a, stateBlind (f a)) -> stateBlind (bind m f).
Proof.
  intros Hm Hf. induction m as [a|k IH|b k IH|k IH|upd k IH|X c k IH]; simpl in *; auto;
    contradiction.
Qed.

Lemma stateBlind_whileLoop (audioFile : AudioFile) :
  forall fuel retryCount, stateBlind (whileLoop fuel audioFile retryCount).
Proof.
  induction fuel as [|fuel IH]; intros rc; cbn [whileLoop]; [exact I|].
  destruct (rc <=? maxRetries)%nat; [|exact I].
  apply stateBlind_bind.
  - unfold tryBlock. apply stateBlind_bind; [intros r; exact I|].
    intros [base64|e]; [|exact I]. apply stateBlind_bind; [intros r; exact I|].
    intros [result|e]; [|exact I]. apply stateBlind_bind; [exact I | intros; exact I].
  - intros [u|e]; [exact I|]. destruct (isRateLimit e); [|exact I].
    destruct (S rc <=? maxRetries)%nat; [|exact I].
    apply stateBlind_bind; [intros r; exact I | intros _; apply IH].
Qed.

Lemma stateBlind_forLoop : forall rest i len, stateBlind (forLoop rest i len).
Proof.
  induction rest as [|x rest IH]; intros i len; cbn [forLoop]; [exact I|].
  apply stateBlind_bind; [exact I|].
  intros _. apply stateBlind_bind; [apply stateBlind_whileLoop|].
  intros _. apply stateBlind_bind; [destruct (i <? len - 1)%Z; [intros r|]; exact I|].
  intros _. apply IH.
Qed.

Lemma blind_run {A : Type} (p : proc A) (env env' : Env) :
  stateBlind p -> sameAnswers env env' ->
  forall n w1 w2,
    log w1 = log w2 ->
    fst (fst (run p env n w1)) = fst (fst (run p env' n w2)) /\
    log (snd (fst (run p env n w1))) = log (snd (fst (run p env' n w2))) /\
    snd (run p env n w1) = snd (run p env' n w2).
Proof.
  intros Hp Hans.
  induction p as [a|k IH|b k IH|k IH|upd k IH|X c k IH]; simpl in *; intros n w1 w2 Hlog;
    try contradiction; auto.
  rewrite <- (Hans n X c). apply IH; [apply Hp|]. simpl. rewrite !log_acts, Hlog. reflexivity.
Qed.

(** X13. What the user does to the queue while a run is in progress changes
    nothing in what the run awaits: two runs from the same state whose
    awaits are answered alike make the same encodings, inferences and sleeps
    in the same order, whatever rows are added or removed meanwhile.  So
    removing the row of a selected job does not cancel its processing. *)
Theorem user_actions_do_not_steer (env env' : Env) (w : World) :
  sameAnswers env env' ->
  log (finalWorld processBatch env w) = log (finalWorld processBatch env' w).
Proof.
  intros Hans. unfold finalWorld, worldAfter, processBatch. simpl.
  destruct (isProcessing w); [reflexivity|].
  apply (blind_run
           (bind (forLoop (filter isPending (files w)) 0
                    (Z.of_nat (length (filter isPending (files w)))))
                 (fun _ => setIsProcessing false)) env env'); auto.
  apply stateBlind_bind; [apply stateBlind_forLoop | intros; exact I].
Qed.

(** *** The labels of Failed jobs *)

Lemma labelled_mapJob (target : string) (patch : AudioFile -> AudioFile)
  (fs : list AudioFile) :
  (forall f, labelled (patch f)) -> Forall labelled fs ->
  Forall labelled (mapJob target patch fs).
Proof.
  intros Hp H. rewrite Forall_forall in *. intros f Hf.
  apply in_mapJob_cases in Hf as [(f0 & Hin & Ht & ->)|[Hin Hne]]; auto.
Qed.

Lemma labelled_act (w : World) (a : action) :
  Forall labelled (files w) -> Forall labelled (files (act w a)).
Proof.
  intros H. rewrite Forall_forall in *. intros f Hf.
  apply in_act in Hf as [Hf|[rf ->]]; auto. intros Hs. discriminate Hs.
Qed.

Lemma processBatch_labelled (w : World) :
  labelledIdle w ->
  wp anyAction labelledRunning processBatch (fun _ w' => labelledIdle w') w.
Proof.
  intros [Hidle Hlab].
  assert (Hwrite : forall x (patch : AudioFile -> AudioFile) w0,
             (forall f, labelled (patch f)) ->
             labelledRunning w0 ->
             labelledRunning (withFiles (mapJob (id x) patch (files w0)) w0)).
  { intros x patch w0 Hp [Hrun H]. split; [exact Hrun|]. apply labelled_mapJob; assumption. }
  assert (Hact : forall w0 a, labelledRunning w0 -> labelledRunning (act w0 a)).
  { intros w0 a [Hrun H]. split; [|apply labelled_act, H].
    unfold running. destruct a; exact Hrun. }
  eapply wp_mono;
    [| apply (protocol_processBatch anyAction labelledRunning
                (fun _ w => labelledRunning w) (fun _ _ w => labelledRunning w));
       auto].
  - intros u w' (w1 & [_ H] & ->). split; [reflexivity | exact H].
  - intros x rest w0. apply Hwrite. intros f Hs. discriminate Hs.
  - intros x rest w0 b result H. apply (Hwrite x); [|exact H]. intros f Hs. discriminate Hs.
  - intros x rest w0 e. apply Hwrite. intros f _. simpl. unfold errorLabel.
    destruct (messageIncludes e "429"); auto.
  - split; [reflexivity | exact Hlab].
Qed.

Lemma labelled_reachable (ls : list label) :
  Forall labelled (files (world (steps mounted ls))).
Proof.
  assert (H : LoopInv anyAction labelledRunning labelledIdle (steps mounted ls)).
  { apply LoopInv_steps.
    - intros w [H _]. exact H.
    - exact processBatch_labelled.
    - intros w a [Hn H] _. split; [|apply labelled_act, H].
      unfold notRunning. destruct a; exact Hn.
    - intros w confirmed [Hn H]. split; [exact Hn|].
      destruct confirmed; simpl; [constructor | exact H].
    - intros w [H _]. exact H.
    - intros w a [Hn H] _. split; [|apply labelled_act, H].
      unfold running. destruct a; exact Hn.
    - left. split; [reflexivity|]. split; [reflexivity | constructor].
    - generalize mounted. induction ls as [|l ls IH]; intros s; simpl; [exact I|].
      split; [destruct l; exact I | apply IH]. }
  apply LoopInv_now in H.
  - destruct H as [[_ H]|[_ H]]; exact H.
  - intros w a [Hn Hl] _. split; [|apply labelled_act, Hl].
    unfold running. destruct a; exact Hn.
Qed.

(** X14. In every state that the component reaches, whatever the user does
    and whatever the awaits yield, the chip of a Failed job shows one of the
    two labels of the catch block; the fallback text of [StatusChip] for a
    Failed job without error text is never shown. *)
Theorem failed_chip_labels (ls : list label) :
  Forall (fun f => status f = FAILED ->
                   statusChipText (status f) (error f) = rateLimitLabel \/
                   statusChipText (status f) (error f) = genericLabel)
         (files (world (steps mounted ls))).
Proof.
  eapply Forall_impl; [|apply labelled_reachable].
  intros f H Hs. rewrite Hs. destruct (H Hs) as [-> | ->]; [left | right]; reflexivity.
Qed.

(** *** A run during which no row is removed *)

Lemma envKeeps_noRemoval (env : Env) :
  neverRemovesAny env -> envKeeps noRemoval env.
Proof.
  intros Hr n w.
  assert (H : forall a, In a (meanwhile env n) -> noRemoval w a).
  { intros [picked|target] Ha; simpl; [exact I | exact (Hr n target Ha)]. }
  revert w H. generalize (meanwhile env n).
  induction l as [|a l IH]; intros w H; simpl; [exact I|].
  split; [apply H; left; reflexivity|].
  apply IH. intros a' Ha'. specialize (H a' (or_intror Ha')). destruct a'; exact H.
Qed.

Lemma mapJob_app (target : string) (patch : AudioFile -> AudioFile)
  (l1 l2 : list AudioFile) :
  mapJob target patch (l1 ++ l2) = mapJob target patch l1 ++ mapJob target patch l2.
Proof. unfold mapJob. apply map_app. Qed.

Lemma processBatch_grownFrom (selected : list string) (origin : list AudioFile)
  (w : World) :
  isProcessing w = false ->
  grownFrom selected origin (filter isPending (files w)) (withIsProcessing true w) ->
  wp noRemoval noInv processBatch
     (fun _ w' => exists w1, grownFrom selected origin [] w1 /\
                             w' = withIsProcessing false w1) w.
Proof.
  intros Hidle Htop.
  assert (Hwrite : forall x rest rest' (patch : AudioFile -> AudioFile) w0,
             (forall f, jobKey (patch f) = jobKey f) ->
             incl (map id rest') (map id (x :: rest)) ->
             grownFrom selected origin (x :: rest) w0 ->
             grownFrom selected origin rest'
               (withFiles (mapJob (id x) patch (files w0)) w0)).
  { intros x rest rest' patch w0 Hp Hsub (Hincl & kept & added & Hfs & Hrel).
    split; [intros i Hi; apply Hincl, Hsub, Hi|].
    exists (mapJob (id x) patch kept), (mapJob (id x) patch added).
    split; [simpl; rewrite Hfs; apply mapJob_app|].
    assert (Hx : In (id x) selected) by (apply Hincl; left; reflexivity).
    clear Hfs Htop. induction Hrel as [|f0 f1 l0 l1 [Hkey Hsame] _ IH]; simpl; constructor; auto.
    destruct (String.eqb (id f1) (id x)) eqn:E.
    - apply String.eqb_eq in E. split; [rewrite Hp; exact Hkey|].
      intros Hns. exfalso. apply Hns.
      assert (Hid : id f1 = id f0) by (unfold jobKey in Hkey; congruence).
      rewrite <- Hid, E. exact Hx.
    - split; assumption. }
  assert (Hact : forall rest w0 a,
             grownFrom selected origin rest w0 -> noRemoval w0 a ->
             grownFrom selected origin rest (act w0 a)).
  { intros rest w0 [picked|target] (Hincl & kept & added & Hfs & Hrel) Ha; [|contradiction].
    split; [exact Hincl|]. exists kept, (added ++ map newFile picked).
    split; [|exact Hrel]. simpl. unfold handleFileChange. rewrite Hfs.
    symmetry. apply app_assoc. }
  apply (protocol_processBatch noRemoval noInv
           (grownFrom selected origin) (fun x rest => grownFrom selected origin (x :: rest)));
    auto.
  - intros x rest w0. apply (Hwrite x rest (x :: rest)); [reflexivity | apply incl_refl].
  - intros x rest w0. exact (fun _ => I).
  - intros x rest w0 b result H.
    exact (Hwrite x rest rest (toCompleted result)
             (record (Inferred b (fileType (file x)) (Fulfilled result)) w0)
             (fun _ => eq_refl) (incl_tl _ (incl_refl _)) H).
  - intros x rest w0 e. apply (Hwrite x rest rest); [reflexivity | apply incl_tl, incl_refl].
  - intros rest w0. exact (fun _ => I).
Qed.

Lemma Forall2_same {T : Type} (R : T -> T -> Prop) (l : list T) :
  (forall x, In x l -> R x x) -> Forall2 R l l.
Proof.
  induction l as [|x l IH]; intros H; constructor.
  - apply H. left. reflexivity.
  - apply IH. intros y Hy. apply H. right. exact Hy.
Qed.

Lemma Forall2_with_In {T U : Type} (R : T -> U -> Prop) : forall (l : list T) (l' : list U),
  Forall2 R l l' -> Forall2 (fun a b => In a l /\ R a b) l l'.
Proof.
  intros l l' H. induction H as [|a b l l' Hab _ IH]; constructor.
  - split; [left; reflexivity | exact Hab].
  - eapply Forall2_impl; [|exact IH]. intros a' b' [Hin HR]. split; [right|]; assumption.
Qed.

Lemma run_grows_in_place (env : Env) (w : World) :
  isProcessing w = false ->
  NoDup (map id (files w)) ->
  neverRemovesAny env ->
  exists kept added,
    files (finalWorld processBatch env w) = kept ++ added /\
    Forall2 (fun f0 f1 => jobKey f1 = jobKey f0 /\ (isPending f0 = false -> f1 = f0))
            (files w) kept.
Proof.
  intros Hidle Hnd Hrem.
  assert (Hwp := processBatch_grownFrom (map id (filter isPending (files w)))
                   (files w) w Hidle).
  apply (wp_run _ _ _ _ env (envKeeps_noRemoval env Hrem) 0) in Hwp.
  - destruct Hwp as (w1 & (_ & kept & added & Hfs & Hrel) & Hw).
    exists kept, added. unfold finalWorld, worldAfter. rewrite Hw. split; [exact Hfs|].
    apply Forall2_with_In in Hrel. eapply Forall2_impl; [|exact Hrel].
    intros f0 f1 (Hin & Hkey & Hsame). split; [exact Hkey|].
    intros Hnp. apply Hsame. intros Hsel.
    apply in_map_iff in Hsel as (f' & Hid & Hf'). apply filter_In in Hf' as [Hf' Hp].
    rewrite (NoDup_map_inj id (files w) f' f0 Hnd Hf' Hin Hid) in Hp. congruence.
  - split; [apply incl_refl|]. exists (files w), []. split; [symmetry; apply app_nil_r|].
    apply Forall2_same. intros f _. split; [reflexivity | auto].
Qed.


Lemma completedCount_app (l1 l2 : list AudioFile) :
  completedCount (l1 ++ l2) = completedCount l1 + completedCount l2.
Proof. unfold completedCount. rewrite filter_app. apply length_app. Qed.

(** X16. With distinct identifiers in the queue and no row removed while a
    run is in progress, neither the counter of analysed jobs nor the length
    of the queue is smaller when the run returns than when it started. *)
Theorem completed_counter_monotone (env : Env) (w : World) :
  isProcessing w = false ->
  NoDup (map id (files w)) ->
  neverRemovesAny env ->
  completedCount (files w) <= completedCount (files (finalWorld processBatch env w)) /\
  length (files w) <= length (files (finalWorld processBatch env w)).
Proof.
  intros Hidle Hnd Hrem.
  destruct (run_grows_in_place env w Hidle Hnd Hrem) as (kept & added & -> & Hrel).
  rewrite completedCount_app, length_app.
  assert (H : completedCount (files w) <= completedCount kept /\
              length (files w) = length kept).
  { clear Hidle Hnd Hrem. induction Hrel as [|f0 f1 l0 l1 [Hkey Hsame] _ IH];
      [split; reflexivity|].
    destruct IH as [IH1 IH2]. unfold completedCount in *. simpl.
    destruct (status_eqb (status f0) COMPLETED) eqn:E; simpl.
    - assert (Hnp : isPending f0 = false) by (unfold isPending; destruct (status f0); auto; discriminate).
      rewrite (Hsame Hnp), E. simpl. lia.
    - destruct (status_eqb (status f1) COMPLETED); simpl; lia. }
  lia.
Qed.

(** *** Jobs being processed *)

Lemma processBatch_oneInHand (w : World) :
  settledIdle w ->
  wp anyAction oneInHand processBatch (fun _ w' => settledIdle w') w.
Proof.
  intros [Hidle Hnone].
  pose (Top := fun (_ : list AudioFile) (w0 : World) =>
                 running w0 /\ forall f, In f (files w0) -> status f <> PROCESSING).
  pose (Mid := fun (x : AudioFile) (_ : list AudioFile) (w0 : World) =>
                 running w0 /\
                 forall f, In f (files w0) -> status f = PROCESSING -> id f = id x).
  assert (Hdone : forall x rest (patch : AudioFile -> AudioFile) w0,
             (forall f, status (patch f) <> PROCESSING) ->
             Mid x rest w0 ->
             Top rest (withFiles (mapJob (id x) patch (files w0)) w0)).
  { intros x rest patch w0 Hp [Hrun H]. split; [exact Hrun|]. intros f Hf Hs. simpl in Hf.
    apply in_mapJob_cases in Hf as [(f0 & Hin & Ht & ->)|[Hin Hne]].
    - exact (Hp f0 Hs).
    - exact (Hne (H f Hin Hs)). }
  eapply wp_mono; [| apply (protocol_processBatch anyAction oneInHand Top Mid); auto].
  - intros u w' (w1 & [_ H] & ->). split; [reflexivity | exact H].
  - intros x rest w0 [Hrun H]. split; [exact Hrun|]. intros f Hf Hs. simpl in Hf.
    apply in_mapJob_cases in Hf as [(f0 & Hin & Ht & ->)|[Hin Hne]]; [exact Ht|].
    exfalso. exact (H f Hin Hs).
  - intros x rest w0 [Hrun H]. split; [exact Hrun|]. exists (id x). exact H.
  - intros x rest w0 a [Hrun H] _. split; [unfold running; destruct a; exact Hrun|].
    intros f Hf Hs. apply in_act in Hf as [Hf|[rf ->]]; [auto | discriminate Hs].
  - intros x rest w0 b result H. apply (Hdone x rest (toCompleted result)); [discriminate|].
    exact H.
  - intros x rest w0 e. apply Hdone. discriminate.
  - intros rest w0 [Hrun H]. split; [exact Hrun|]. exists EmptyString.
    intros f Hf Hs. exfalso. exact (H f Hf Hs).
  - intros rest w0 a [Hrun H] _. split; [unfold running; destruct a; exact Hrun|].
    intros f Hf Hs. apply in_act in Hf as [Hf|[rf ->]]; [exact (H f Hf Hs) | discriminate Hs].
  - split; [reflexivity | exact Hnone].
Qed.

Lemma oneInHand_act (w : World) (a : action) : oneInHand w -> oneInHand (act w a).
Proof.
  intros [Hrun [x H]]. split; [unfold running; destruct a; exact Hrun|].
  exists x. intros f Hf Hs. apply in_act in Hf as [Hf|[rf ->]]; [auto | discriminate Hs].
Qed.

Lemma processing_reachable (ls : list label) :
  settledIdle (world (steps mounted ls)) \/ oneInHand (world (steps mounted ls)).
Proof.
  apply (LoopInv_now anyAction oneInHand settledIdle).
  - intros w a H _. apply oneInHand_act, H.
  - apply LoopInv_steps.
    + intros w [H _]. exact H.
    + exact processBatch_oneInHand.
    + intros w a [Hn H] _. split; [unfold notRunning; destruct a; exact Hn|].
      intros f Hf Hs. apply in_act in Hf as [Hf|[rf ->]]; [exact (H f Hf Hs) | discriminate Hs].
    + intros w confirmed [Hn H]. split; [exact Hn|].
      destruct confirmed; simpl; [intros f [] | exact H].
    + intros w [H _]. exact H.
    + intros w a H _. apply oneInHand_act, H.
    + left. split; [reflexivity|]. split; [reflexivity | intros f []].
    + generalize mounted. induction ls as [|l ls IH]; intros s; simpl; [exact I|].
      split; [destruct l; exact I | apply IH].
Qed.

(** X17. No job stays Processing behind a run: in every state that the
    component reaches, whatever the user does and whatever the awaits
    yield, either a run is active or no job of the queue is Processing. *)
Theorem no_job_stuck_processing (ls : list label) :
  let w := world (steps mounted ls) in
  isProcessing w = true \/ Forall (fun f => status f <> PROCESSING) (files w).
Proof.
  intros w. destruct (processing_reachable ls) as [[_ H]|[H _]]; [right | left; exact H].
  apply Forall_forall. exact H.
Qed.

Lemma filter_same_id (p : AudioFile -> bool) (x : string) : forall fs,
  NoDup (map id fs) ->
  (forall f, In f fs -> p f = true -> id f = x) ->
  length (filter p fs) <= 1.
Proof.
  induction fs as [|f fs IH]; simpl; intros Hnd H; [lia|].
  inversion Hnd as [|? ? Hf Hnd']; subst.
  destruct (p f) eqn:E; [|apply IH; auto].
  simpl. assert (Hnone : filter p fs = []).
  { destruct (filter p fs) as [|g gs] eqn:Eg; [reflexivity|]. exfalso.
    assert (Hg : In g (filter p fs)) by (rewrite Eg; left; reflexivity).
    apply filter_In in Hg as [Hg Hpg]. apply Hf.
    rewrite (H f (or_introl eq_refl) E), <- (H g (or_intror Hg) Hpg). apply in_map, Hg. }
  rewrite Hnone. simpl. lia.
Qed.

(** X18. Jobs are processed one at a time: in every state that the
    component reaches with the identifiers of added files fresh in the
    queue, at most one job of the queue is Processing. *)
Theorem one_job_at_a_time (ls : list label) :
  validFrom freshPick mounted ls ->
  length (processingJobs (files (world (steps mounted ls)))) <= 1.
Proof.
  intros Hv. destruct (wellFormed_reachable ls Hv) as (Hnd & _ & _).
  destruct (processing_reachable ls) as [[_ H]|[_ [x H]]].
  - apply (filter_same_id _ EmptyString); [exact Hnd|].
    intros f Hf Hp. exfalso. apply (H f Hf).
    destruct (status f); try discriminate Hp. reflexivity.
  - apply (filter_same_id _ x); [exact Hnd|].
    intros f Hf Hp. apply H; [exact Hf|].
    destruct (status f); try discriminate Hp. reflexivity.
Qed.

(** X19. The queue cannot be cleared under a run: in every state that the
    component reaches, either no run is in flight, or the clear-all button
    (disabled while [isProcessing]) leaves the state as it is, whatever the
    answer to the confirmation. *)
Theorem clear_all_blocked (ls : list label) (confirmed : bool) :
  let s := steps mounted ls in
  inflight s = [] \/ step s (ClearAll confirmed) = s.
Proof.
  intros s. subst s. generalize (guard_invariant ls).
  generalize (steps mounted ls). intros [w parkedRuns].
  intros [[Hin Hidle] | (X & c & k & w0 & acted & Hin & Hi0 & Hok & Hw & Hk)];
    simpl in *; [left; exact Hin|].
  right. assert (Hrun : isProcessing w = true)
    by (rewrite Hw, isProcessing_acts; exact Hi0).
  rewrite Hrun. reflexivity.
Qed.

End App.

(** ** Sample runs *)

(** *** The export *)

Lemma string_app_assoc (a b c : string) :
  ((a ++ b) ++ c)%string = (a ++ b ++ c)%string.
Proof. induction a as [|x a IH]; simpl; [reflexivity | now rewrite IH]. Qed.

Lemma doubleQuotes_quoteFree (s : string) :
  quoteFree s = true -> doubleQuotes s = s.
Proof.
  induction s as [|c s IH]; simpl; [reflexivity|].
  destruct (Ascii.eqb c dquote); simpl; [discriminate|].
  intros H. rewrite IH; [reflexivity | exact H].
Qed.

Lemma quoteFree_digits (d : Decimal.uint) :
  quoteFree (NilEmpty.string_of_uint d) = true.
Proof. induction d; simpl; auto. Qed.

Lemma quoteFree_levelText (x : option Z) : quoteFree (levelText x) = true.
Proof.
  destruct x as [n|]; simpl; [|reflexivity].
  destruct (n =? 0)%Z; [reflexivity|].
  destruct (Z.to_int n) as [d|d]; simpl.
  - destruct d; simpl; auto using quoteFree_digits.
  - destruct d; simpl; auto using quoteFree_digits.
Qed.

(** Where the name, the emotion label and the voice identity hold no double
    quote, the exported row is the row specified, whatever the reasoning. *)
Lemma exportRow_specified (f : AudioFile) :
  quoteFree (name f) = true ->
  quoteFree (orEmpty (emotionType f)) = true ->
  quoteFree (orEmpty (voiceIdentity f)) = true ->
  exportRow f = specifiedRow f.
Proof.
  intros Hn He Hv. unfold exportRow, specifiedRow, quoteField.
  rewrite (doubleQuotes_quoteFree _ Hn), (doubleQuotes_quoteFree _ He),
    (doubleQuotes_quoteFree _ Hv), (doubleQuotes_quoteFree _ (quoteFree_levelText _)).
  rewrite !string_app_assoc. destruct (reasoning f); reflexivity.
Qed.

(** C6 (the code departs from it). The export has one row per job, but only
    the reasoning goes through the doubling of double quotes: the row of an
    Idle job whose name is a, double quote, b.wav carries the name as it is,
    its double quote not doubled, which is not the row specified. *)
Theorem export_name_not_escaped :
  (forall files, length (exportRows files) = length files) /\
  exportResults [quotedJob] = (bom ++ header ++ exportRow quotedJob)%string /\
  exportRow quotedJob =
    (dq ++ "a" ++ dq ++ "b.wav" ++ dq ++ "," ++ dq ++ dq ++ "," ++ dq ++ dq ++ ","
        ++ dq ++ dq ++ "," ++ dq ++ dq)%string /\
  specifiedRow quotedJob =
    (dq ++ "a" ++ dq ++ dq ++ "b.wav" ++ dq ++ "," ++ dq ++ dq ++ "," ++ dq ++ dq ++ ","
        ++ dq ++ dq ++ "," ++ dq ++ dq)%string /\
  exportRow quotedJob <> specifiedRow quotedJob.
Proof.
  split; [intros files; apply length_map|]. repeat split. discriminate.
Qed.

Lemma inter_job_delay_witness :
  isProcessing mixedWorld = false /\
  exists segs,
    Forall2 jobSegment (filter isPending (files mixedWorld)) segs /\
    Forall (fun seg => ~ In (Slept 1500) seg) segs /\
    log (finalWorld sampleFormat processBatch exhaustedEnv mixedWorld) =
      log mixedWorld ++ paced segs.
Proof.
  split; [reflexivity|].
  exact (inter_job_delay sampleFormat exhaustedEnv mixedWorld eq_refl).
Defined.

Lemma mixedWorld_NoDup : NoDup (map id (files mixedWorld)).
Proof. repeat constructor; simpl; intuition discriminate. Defined.

Lemma run_frame_witness :
  isProcessing mixedWorld = false /\
  NoDup (map id (files mixedWorld)) /\
  let pendingFiles := filter isPending (files mixedWorld) in
  let w' := finalWorld sampleFormat processBatch addingEnv mixedWorld in
  (exists segs, Forall2 jobSegment pendingFiles segs /\
                log w' = log mixedWorld ++ paced segs) /\
  (forall f0, In f0 pendingFiles ->
     (neverRemoves [id f0] addingEnv -> In (id f0) (map id (files w'))) /\
     (picksAvoid [id f0] addingEnv ->
      forall f, In f (files w') -> id f = id f0 ->
        written (log mixedWorld) (log w') f0 f)) /\
  (forall f, In f (files mixedWorld) -> isPending f = false ->
     neverRemoves [id f] addingEnv -> In f (files w')) /\
  (forall f, In f (files w') -> ~ In (id f) (map id pendingFiles) ->
     untouched sampleFormat (files mixedWorld) f).
Proof.
  split; [reflexivity|]. split; [exact mixedWorld_NoDup|].
  exact (run_frame sampleFormat addingEnv mixedWorld eq_refl mixedWorld_NoDup).
Defined.

Lemma addingEnv_avoids :
  picksAvoid (map id (filter isPending (files mixedWorld))) addingEnv.
Proof.
  intros [|n] picked rf; simpl; [|intros []].
  intros [H|[]]. inversion H; subst. intros [<-|[]]. simpl.
  intros [H'|[H'|[]]]; discriminate H'.
Defined.

Lemma run_postcondition_witness :
  isProcessing mixedWorld = false /\
  picksAvoid (map id (filter isPending (files mixedWorld))) addingEnv /\
  let pendingFiles := filter isPending (files mixedWorld) in
  let w' := finalWorld sampleFormat processBatch addingEnv mixedWorld in
  isProcessing w' = false /\
  (forall f, In f (files w') -> In (id f) (map id pendingFiles) -> terminal f) /\
  (exists segs, Forall2 jobSegment pendingFiles segs /\
                log w' = log mixedWorld ++ paced segs).
Proof.
  split; [reflexivity|]. split; [exact addingEnv_avoids|].
  exact (run_postcondition sampleFormat addingEnv mixedWorld eq_refl addingEnv_avoids).
Defined.

(** The run on [mixedWorld] under [addingEnv]: the Idle and the Failed job
    are processed, in that order; the Completed job and the file added
    meanwhile are left as they are. *)
Example mixed_run :
  let w' := finalWorld sampleFormat processBatch addingEnv mixedWorld in
  map id (files w') = ["x"; "y"; "z"; "n"] /\
  map status (files w') = [FAILED; COMPLETED; FAILED; IDLE] /\
  nth_error (files w') 1 = nth_error (files mixedWorld) 1 /\
  nth_error (files w') 3 = Some (newFile sampleFormat ("n", sampleFile)) /\
  length (filter (fun e => match e with Slept 1500 => true | _ => false end) (log w')) = 1 /\
  isProcessing w' = false.
Proof. repeat split. Qed.

(** In the same run, the job found under the identifier of the first
    selected job is what the run wrote of it. *)
Example mixed_run_written :
  let w' := finalWorld sampleFormat processBatch addingEnv mixedWorld in
  nth_error (files w') 0 = Some (toFailed genericLabel (toProcessing sampleJob)) /\
  written (log mixedWorld) (log w') sampleJob
          (toFailed genericLabel (toProcessing sampleJob)).
Proof.
  split; [reflexivity|]. right. exists genericLabel. split; [right|]; reflexivity.
Qed.

Lemma loudSchedule_valid : validFrom sampleFormat freshPick mounted loudSchedule.
Proof.
  simpl. repeat split; try exact I.
  - repeat constructor. simpl. tauto.
  - intros rf _ [].
Defined.

Lemma emptySchedule_valid : validFrom sampleFormat freshPick mounted emptySchedule.
Proof.
  simpl. repeat split; try exact I.
  - repeat constructor. simpl. tauto.
  - intros rf _ [].
Defined.

Lemma sampleSchedule_valid : validFrom sampleFormat freshPick mounted sampleSchedule.
Proof.
  simpl. repeat split; try exact I.
  - repeat constructor. simpl. tauto.
  - intros rf _ [].
Defined.

Lemma queue_invariant_witness :
  validFrom sampleFormat freshPick mounted sampleSchedule /\
  let w := world (steps sampleFormat mounted sampleSchedule) in
  Forall (fun f =>
            (error f <> None <-> status f = FAILED) /\
            (status f <> COMPLETED -> noResult f) /\
            (status f = COMPLETED ->
             exists b m result,
               In (Inferred b m (Fulfilled result)) (log w) /\ resultOf f result) /\
            ((forall b m result,
                In (Inferred b m (Fulfilled result)) (log w) -> hasAllFields result) ->
             jobInvariant f))
         (files w).
Proof.
  split; [exact sampleSchedule_valid|].
  exact (queue_invariant sampleFormat sampleSchedule sampleSchedule_valid).
Defined.

(** C5, as the specification words it, fails: after [emptySchedule], in
    which the inference yields the empty object, the one job of the queue
    is Completed and has none of its four result fields. *)
Lemma empty_reply_completed :
  validFrom sampleFormat freshPick mounted emptySchedule /\
  files (world (steps sampleFormat mounted emptySchedule)) =
    [{| id := "x"; file := sampleFile; name := "a.wav"; size := "1 KB";
        status := COMPLETED;
        emotionType := None; emotionLevel := None;
        voiceIdentity := None; reasoning := None; error := None |}] /\
  ~ Forall jobInvariant (files (world (steps sampleFormat mounted emptySchedule))).
Proof.
  split; [exact emptySchedule_valid|]. split; [reflexivity|].
  intros H. inversion H as [|f fs [[_ Hf] _] _]; subst.
  exact (Hf eq_refl eq_refl).
Qed.

Lemma completed_fields_witness :
  validFrom sampleFormat freshPick mounted sampleSchedule /\
  let w := world (steps sampleFormat mounted sampleSchedule) in
  forall f, In f (files w) -> status f = COMPLETED ->
    (exists b m result, In (Inferred b m (Fulfilled result)) (log w) /\ resultOf f result) /\
    ((forall b m result, In (Inferred b m (Fulfilled result)) (log w) ->
        hasAllFields result /\ levelInRange result) ->
     emotionType f <> None /\ voiceIdentity f <> None /\ reasoning f <> None /\
     exists level, emotionLevel f = Some level /\ (1 <= level <= 10)%Z).
Proof.
  split; [exact sampleSchedule_valid|].
  exact (completed_fields sampleFormat sampleSchedule sampleSchedule_valid).
Defined.

(** C7, as the specification words it, fails twice.  After [loudSchedule]
    the one job of the queue is Completed with intensity 11; after
    [emptySchedule] it is Completed with none of its four result fields. *)
Lemma intensity_out_of_range :
  ~ (forall ls, validFrom sampleFormat freshPick mounted ls ->
                completedInRange (steps sampleFormat mounted ls)) /\
  (validFrom sampleFormat freshPick mounted loudSchedule /\
   map status (files (world (steps sampleFormat mounted loudSchedule))) = [COMPLETED] /\
   map emotionLevel (files (world (steps sampleFormat mounted loudSchedule))) = [Some 11%Z] /\
   ~ completedInRange (steps sampleFormat mounted loudSchedule)) /\
  (validFrom sampleFormat freshPick mounted emptySchedule /\
   map status (files (world (steps sampleFormat mounted emptySchedule))) = [COMPLETED] /\
   map emotionType (files (world (steps sampleFormat mounted emptySchedule))) = [None] /\
   ~ completedInRange (steps sampleFormat mounted emptySchedule)).
Proof.
  assert (Hloud : ~ completedInRange (steps sampleFormat mounted loudSchedule)).
  { intros H.
    destruct (H (toCompleted loudResult (toProcessing (newFile sampleFormat ("x", sampleFile)))))
      as (_ & _ & _ & level & Hlevel & Hrange).
    - left. reflexivity.
    - reflexivity.
    - simpl in Hlevel. inversion Hlevel; subst. lia. }
  assert (Hempty : ~ completedInRange (steps sampleFormat mounted emptySchedule)).
  { intros H.
    destruct (H (toCompleted emptyResult (toProcessing (newFile sampleFormat ("x", sampleFile)))))
      as (Hty & _).
    - left. reflexivity.
    - reflexivity.
    - apply Hty. reflexivity. }
  split; [|split].
  - intros H. exact (Hloud (H loudSchedule loudSchedule_valid)).
  - split; [exact loudSchedule_valid|]. repeat split. exact Hloud.
  - split; [exact emptySchedule_valid|]. repeat split. exact Hempty.
Qed.

Lemma unreadable_unmarked : ~ rateLimitMarked unreadable.
Proof.
  intros H. apply isRateLimit_Contains in H. discriminate H.
Defined.

Lemma encode_failure_generic_witness :
  1 <= maxRetries /\ 0 < 2 /\
  answer unreadableEnv 3 _ (fileToBase64 (file sampleJob)) = Rejected unreadable /\
  ~ rateLimitMarked unreadable /\
  let w' := worldAfter sampleFormat (whileLoop 2 sampleJob 1) unreadableEnv 3 sampleWorld in
  log w' = log sampleWorld ++ [Encoded (file sampleJob) (Rejected unreadable)] /\
  forall f, In f (files w') -> id f = id sampleJob ->
    status f = FAILED /\ error f = Some genericLabel.
Proof.
  assert (H1 : 1 <= maxRetries) by (unfold maxRetries; lia).
  assert (H2 : 0 < 2) by lia.
  split; [exact H1|]. split; [exact H2|]. split; [reflexivity|].
  split; [exact unreadable_unmarked|].
  exact (encode_failure_generic sampleFormat sampleJob unreadableEnv 2 1 3 sampleWorld
           unreadable H1 H2 eq_refl unreadable_unmarked).
Defined.

(** C8, as the specification words it, fails: an encoding rejected with a
    message that contains 429 is retried, after waits of 5000 and 10000 ms,
    and the job ends under the rate-limit label. *)
Lemma encode_failure_retried :
  ~ encodeFailureIsFinal sampleFormat sampleJob encode429Env 0 sampleWorld.
Proof.
  intros H. destruct (H tooMany eq_refl) as [Hlog _].
  vm_compute in Hlog. discriminate Hlog.
Qed.

(** ** Further properties of the rendering and of the export *)

(** X4. [getLevelColor] never yields undefined: for every integer level it
    yields a colour of the palette, the first for every level up to 1, the
    last for every level from 10 on, and the colour at [level - 1] between. *)
Theorem getLevelColor_defined (level : Z) :
  exists c,
    getLevelColor level = Some c /\ In c colors /\
    ((level <= 1)%Z -> c = "bg-emerald-400") /\
    ((10 <= level)%Z -> c = "bg-rose-600") /\
    ((1 <= level <= 10)%Z -> nth_error colors (Z.to_nat (level - 1)) = Some c).
Proof.
  unfold getLevelColor.
  assert (Hi : Z.to_nat (Z.max 0 (Z.min (level - 1) 9)) < length colors) by (simpl; lia).
  destruct (nth_error colors (Z.to_nat (Z.max 0 (Z.min (level - 1) 9)))) as [c|] eqn:E;
    [|apply nth_error_None in E; lia].
  exists c. split; [reflexivity|]. split; [eapply nth_error_In; eauto|].
  split; [|split]; intros H.
  - replace (Z.max 0 (Z.min (level - 1) 9)) with 0%Z in E by lia.
    simpl in E. congruence.
  - replace (Z.max 0 (Z.min (level - 1) 9)) with 9%Z in E by lia.
    simpl in E. congruence.
  - replace (Z.max 0 (Z.min (level - 1) 9)) with (level - 1)%Z in E by lia. exact E.
Qed.

Lemma string_length_app (a b : string) :
  String.length (a ++ b) = String.length a + String.length b.
Proof. induction a as [|x a IH]; simpl; [reflexivity | now rewrite IH]. Qed.

Lemma length_doubleQuotes (s : string) :
  String.length (doubleQuotes s) = String.length s + quoteCount s.
Proof.
  induction s as [|c s IH]; simpl; [reflexivity|].
  destruct (Ascii.eqb c dquote); simpl; rewrite IH; lia.
Qed.

Lemma quoteFree_quoteCount (s : string) :
  quoteFree s = true <-> quoteCount s = 0.
Proof.
  induction s as [|c s IH]; simpl; [tauto|].
  destruct (Ascii.eqb c dquote); simpl; [split; [discriminate | lia]| exact IH].
Qed.

(** X5. The doubling of double quotes applied to the reasoning loses
    nothing: two texts with the same doubled form are the same text. *)
Theorem doubleQuotes_injective (a b : string) :
  doubleQuotes a = doubleQuotes b <-> a = b.
Proof.
  split; [|intros ->; reflexivity].
  revert b. induction a as [|c a IH]; intros [|d b]; simpl.
  - reflexivity.
  - destruct (Ascii.eqb d dquote); discriminate.
  - destruct (Ascii.eqb c dquote); discriminate.
  - destruct (Ascii.eqb c dquote) eqn:Ec, (Ascii.eqb d dquote) eqn:Ed; intros H.
    + apply Ascii.eqb_eq in Ec, Ed. subst. inversion H as [H']. now rewrite (IH b H').
    + inversion H as [[Hd H']]. subst d. rewrite Ascii.eqb_refl in Ed. discriminate.
    + inversion H as [[Hc H']]. subst c. rewrite Ascii.eqb_refl in Ec. discriminate.
    + inversion H as [[Hc H']]. subst. now rewrite (IH b H').
Qed.

(** X6. The exported row of a job is the row with every field quoted and
    its double quotes doubled exactly when the name, the emotion label and
    the voice identity of the job hold no double quote, whatever the
    reasoning and the intensity. *)
Theorem exportRow_specified_iff (f : AudioFile) :
  exportRow f = specifiedRow f <->
  quoteFree (name f) = true /\
  quoteFree (orEmpty (emotionType f)) = true /\
  quoteFree (orEmpty (voiceIdentity f)) = true.
Proof.
  split; [|intros (Hn & He & Hv); apply exportRow_specified; assumption].
  intros H. apply (f_equal String.length) in H.
  unfold exportRow, specifiedRow, quoteField in H.
  assert (Hl : quoteCount (levelText (emotionLevel f)) = 0)
    by (apply quoteFree_quoteCount, quoteFree_levelText).
  assert (Hr : String.length (reasoningText (reasoning f)) =
               String.length (doubleQuotes (orEmpty (reasoning f))))
    by (destruct (reasoning f); reflexivity).
  rewrite !string_length_app, !length_doubleQuotes in H.
  rewrite !length_doubleQuotes in Hr.
  rewrite !quoteFree_quoteCount. lia.
Qed.

Lemma quoteCount_app (a b : string) :
  quoteCount (a ++ b) = quoteCount a + quoteCount b.
Proof. induction a as [|x a IH]; simpl; [reflexivity | rewrite IH; lia]. Qed.

Lemma quoteCount_doubleQuotes (s : string) :
  quoteCount (doubleQuotes s) = 2 * quoteCount s.
Proof.
  induction s as [|c s IH]; simpl; [reflexivity|].
  destruct (Ascii.eqb c dquote) eqn:E; simpl; rewrite ?E; simpl; rewrite IH; lia.
Qed.

(** X20. An exported row holds the ten double quotes that delimit its five
    fields, two for each double quote of the reasoning, and one for each
    double quote of the name, the emotion label and the voice identity,
    which are written as they are. *)
Theorem exportRow_quoteCount (f : AudioFile) :
  quoteCount (exportRow f) =
  10 + 2 * quoteCount (orEmpty (reasoning f)) +
  quoteCount (name f) + quoteCount (orEmpty (emotionType f)) +
  quoteCount (orEmpty (voiceIdentity f)).
Proof.
  unfold exportRow. rewrite !quoteCount_app.
  assert (Hl : quoteCount (levelText (emotionLevel f)) = 0)
    by (apply quoteFree_quoteCount, quoteFree_levelText).
  assert (Hr : quoteCount (reasoningText (reasoning f)) =
               2 * quoteCount (orEmpty (reasoning f)))
    by (destruct (reasoning f); simpl; [apply quoteCount_doubleQuotes | reflexivity]).
  rewrite Hl, Hr. change (quoteCount dq) with 1. change (quoteCount ",") with 0. lia.
Qed.

(** X21. The intensity field of an exported row is empty exactly when the
    job has no intensity or has intensity 0: the export cannot tell a
    result of intensity 0 from no result. *)
Theorem levelText_empty_iff (x : option Z) :
  levelText x = EmptyString <-> x = None \/ x = Some 0%Z.
Proof.
  destruct x as [n|]; simpl; [|split; auto].
  destruct (n =? 0)%Z eqn:E.
  - apply Z.eqb_eq in E. subst. split; auto.
  - apply Z.eqb_neq in E. split.
    + intros H. exfalso. destruct (Z.to_int n) as [d|d]; simpl in H; [|discriminate H].
      destruct d; discriminate H.
    + intros [H|H]; [discriminate H | inversion H; contradiction].
Qed.

(** ** Sample runs for the further properties *)

Lemma add_then_remove_witness :
  ~ In "n" (map id (files mixedWorld)) /\
  removeFile "n"
    (handleFileChange sampleFormat [("n", sampleFile); ("m", sampleFile)] (files mixedWorld)) =
    files mixedWorld ++
    map (newFile sampleFormat)
        (filter (fun rf => negb (String.eqb (fst rf) "n")) [("n", sampleFile); ("m", sampleFile)]) /\
  forall f, removeFile "n" (handleFileChange sampleFormat [("n", f)] (files mixedWorld)) =
            files mixedWorld.
Proof.
  assert (H : ~ In "n" (map id (files mixedWorld))) by (simpl; intuition discriminate).
  split; [exact H|].
  exact (add_then_remove sampleFormat (files mixedWorld)
           [("n", sampleFile); ("m", sampleFile)] "n" H).
Defined.

Lemma nothing_pending_witness :
  isProcessing doneWorld = false /\
  filter isPending (files doneWorld) = [] /\
  run sampleFormat processBatch addingEnv 0 doneWorld = (tt, doneWorld, 0).
Proof.
  split; [reflexivity|]. split; [reflexivity|].
  exact (nothing_pending sampleFormat addingEnv 0 doneWorld eq_refl eq_refl).
Defined.

Lemma rate_limit_label_after_three_witness :
  let f := toFailed rateLimitLabel sampleJob in
  let w' := worldAfter sampleFormat (whileLoop (S maxRetries) sampleJob 0)
              encode429Env 0 sampleWorld in
  In f (files w') /\ id f = id sampleJob /\
  status f = FAILED /\ error f = Some rateLimitLabel /\
  exists a1 a2 a3,
    rateLimited a1 /\ rateLimited a2 /\ rateLimited a3 /\
    log w' = log sampleWorld ++ attemptLog sampleJob a1 ++ Slept 5000 ::
                                attemptLog sampleJob a2 ++ Slept 10000 ::
                                attemptLog sampleJob a3.
Proof.
  assert (H : In (toFailed rateLimitLabel sampleJob)
                (files (worldAfter sampleFormat (whileLoop (S maxRetries) sampleJob 0)
                          encode429Env 0 sampleWorld)))
    by (left; reflexivity).
  split; [exact H|]. split; [reflexivity|]. split; [reflexivity|]. split; [reflexivity|].
  exact (rate_limit_label_after_three sampleFormat sampleJob encode429Env 0 sampleWorld
           (toFailed rateLimitLabel sampleJob) H eq_refl eq_refl eq_refl).
Defined.

Lemma call_budget_witness :
  isProcessing mixedWorld = false /\
  let k := length (filter isPending (files mixedWorld)) in
  let w' := finalWorld sampleFormat processBatch addingEnv mixedWorld in
  count isInference (log w') <= count isInference (log mixedWorld) + 3 * k /\
  count isEncoding (log mixedWorld) + k <= count isEncoding (log w') /\
  count isEncoding (log w') <= count isEncoding (log mixedWorld) + 3 * k /\
  count isPause (log w') = count isPause (log mixedWorld) + (k - 1) /\
  length (log w') <= length (log mixedWorld) + 8 * k + (k - 1).
Proof.
  split; [reflexivity|].
  exact (call_budget sampleFormat addingEnv mixedWorld eq_refl).
Defined.

Lemma sleep_budget_witness :
  isProcessing mixedWorld = false /\
  let k := length (filter isPending (files mixedWorld)) in
  let w' := finalWorld sampleFormat processBatch addingEnv mixedWorld in
  (timeSlept (log mixedWorld) + 1500 * Z.of_nat (k - 1) <= timeSlept (log w'))%Z /\
  (timeSlept (log w') <=
   timeSlept (log mixedWorld) + 15000 * Z.of_nat k + 1500 * Z.of_nat (k - 1))%Z.
Proof.
  split; [reflexivity|].
  exact (sleep_budget sampleFormat addingEnv mixedWorld eq_refl).
Defined.

Lemma idle_after_run_witness :
  isProcessing mixedWorld = false /\
  let pendingFiles := filter isPending (files mixedWorld) in
  Forall (fun f => status f = IDLE ->
                   addedBy sampleFormat addingEnv
                           (awaitsOf sampleFormat processBatch addingEnv mixedWorld) f /\
                   (picksAvoid (map id pendingFiles) addingEnv ->
                    ~ In (id f) (map id pendingFiles)))
         (files (finalWorld sampleFormat processBatch addingEnv mixedWorld)).
Proof.
  split; [reflexivity|].
  exact (idle_after_run sampleFormat addingEnv mixedWorld eq_refl).
Defined.

Lemma addingEnv_sameAnswers : sameAnswers exhaustedEnv addingEnv.
Proof. intros n X c. reflexivity. Defined.

Lemma user_actions_do_not_steer_witness :
  sameAnswers exhaustedEnv addingEnv /\
  log (finalWorld sampleFormat processBatch exhaustedEnv mixedWorld) =
  log (finalWorld sampleFormat processBatch addingEnv mixedWorld).
Proof.
  split; [exact addingEnv_sameAnswers|].
  exact (user_actions_do_not_steer sampleFormat exhaustedEnv addingEnv mixedWorld
           addingEnv_sameAnswers).
Defined.

Lemma addingEnv_neverRemoves : neverRemovesAny addingEnv.
Proof.
  intros [|n] target; simpl; [|intros []]. intros [H|[]]. discriminate H.
Defined.


Lemma completed_counter_monotone_witness :
  isProcessing mixedWorld = false /\
  NoDup (map id (files mixedWorld)) /\
  neverRemovesAny addingEnv /\
  completedCount (files mixedWorld) <=
    completedCount (files (finalWorld sampleFormat processBatch addingEnv mixedWorld)) /\
  length (files mixedWorld) <=
    length (files (finalWorld sampleFormat processBatch addingEnv mixedWorld)).
Proof.
  split; [reflexivity|]. split; [exact mixedWorld_NoDup|].
  split; [exact addingEnv_neverRemoves|].
  exact (completed_counter_monotone sampleFormat addingEnv mixedWorld eq_refl
           mixedWorld_NoDup addingEnv_neverRemoves).
Defined.

Lemma busySchedule_valid : validFrom sampleFormat freshPick mounted busySchedule.
Proof.
  simpl. repeat split; try exact I.
  - repeat constructor; simpl; intuition discriminate.
  - intros rf _ [].
Defined.

Lemma one_job_at_a_time_witness :
  validFrom sampleFormat freshPick mounted busySchedule /\
  length (processingJobs (files (world (steps sampleFormat mounted busySchedule)))) <= 1.
Proof.
  split; [exact busySchedule_valid|].
  exact (one_job_at_a_time sampleFormat busySchedule busySchedule_valid).
Defined.
